(** * git-access: the local cache of a remote git branch

    A shallow embedding of [git-access.c]: the locator parser
    ([is_git_repository], [is_remote_git_repository]), the cache addressor
    ([get_local_dir]), the repository acquirer ([get_remote_repo],
    [update_local_repo], [create_local_repo]) and the synchronisation
    engine ([check_remote_status], [try_to_update], [reset_to_remote],
    [update_remote], [check_clean]), followed by the properties the
    specification states about them.

    Conventions.
    - A C string is a Rocq [string] holding the characters before the
      terminating NUL; reading the character at index [strlen] yields the
      NUL.  Lengths and indices are [nat]: file names are taken to be
      shorter than [INT_MAX], so the [int] counters of the parser do not
      wrap.
    - [unsigned int] flags are [Z] with the 32-bit wrap-around written out.
    - Global and on-disk state (the preferences, the file system, the
      repositories, the report sink) is a [world] threaded through a state
      monad; what libgit2, the allocator and the network answer is read
      from a [backend] record of oracles. *)

From Stdlib Require Import ZArith String Ascii List Lia Bool.
From stdpp Require Import base gmap strings list.
Import ListNotations.
#[local] Arguments String.append !_ _ : simpl nomatch.
Open Scope string_scope.
Open Scope list_scope.
Open Scope Z_scope.

(** ** C strings *)

Definition NUL : ascii := Ascii.zero.

(** [s[i]]: the character at index [i], the terminator at [strlen s]. *)
Definition char_at (s : string) (i : nat) : ascii :=
  match String.get i s with
  | Some c => c
  | None => NUL
  end.

(** [s + n]: the string a pointer advanced by [n <= strlen s] sees. *)
Fixpoint str_drop (n : nat) (s : string) : string :=
  match n, s with
  | O, _ => s
  | S n', String _ s' => str_drop n' s'
  | S _, EmptyString => EmptyString
  end.

(** The first [n] characters, as [strndup] and the [%.*s] conversion copy
    them. *)
Fixpoint str_take (n : nat) (s : string) : string :=
  match n, s with
  | O, _ => EmptyString
  | S n', String c s' => String c (str_take n' s')
  | S _, EmptyString => EmptyString
  end.

(** [strchr s c]: the offset of the first [c] in [s], if any. *)
Fixpoint strchr (s : string) (c : ascii) : option nat :=
  match s with
  | EmptyString => None
  | String x s' =>
      if Ascii.eqb x c then Some O
      else match strchr s' c with
           | Some i => Some (S i)
           | None => None
           end
  end.

(** [strncmp s lit (strlen lit) == 0] for a literal [lit]. *)
Definition has_prefix (lit s : string) : bool := String.prefix lit s.

Definition bytes_of_string (s : string) : list Z :=
  map (fun c => Z.of_N (N_of_ascii c)) (list_ascii_of_string s).

(** A C string holds no NUL before its terminator. *)
Definition cstring (s : string) : Prop := strchr s NUL = None.

(** ** SHA-1 *)

Module Sha1.

Definition w32 (x : Z) : Z := x mod 2 ^ 32.

Definition rotl (n x : Z) : Z :=
  w32 (Z.lor (Z.shiftl x n) (Z.shiftr x (32 - n))).

(** [n] bytes of [x], most significant first. *)
Fixpoint be_bytes (n : nat) (x : Z) : list Z :=
  match n with
  | O => []
  | S n' => Z.shiftr x (8 * Z.of_nat n') mod 256 :: be_bytes n' x
  end.

Fixpoint be_word (bs : list Z) (acc : Z) : Z :=
  match bs with
  | [] => acc
  | b :: bs' => be_word bs' (acc * 256 + b)
  end.

Definition pad (msg : list Z) : list Z :=
  let l := Z.of_nat (length msg) in
  msg ++ [128] ++ repeat 0 (Z.to_nat ((55 - l) mod 64)) ++ be_bytes 8 (8 * l).

Fixpoint words (n : nat) (bs : list Z) : list Z :=
  match n with
  | O => []
  | S n' => be_word (firstn 4 bs) 0 :: words n' (skipn 4 bs)
  end.

(** The message schedule, latest word first. *)
Fixpoint schedule (n : nat) (w : list Z) : list Z :=
  match n with
  | O => w
  | S n' =>
      let x := Z.lxor (Z.lxor (nth 2 w 0) (nth 7 w 0))
                      (Z.lxor (nth 13 w 0) (nth 15 w 0)) in
      schedule n' (rotl 1 x :: w)
  end.

Definition state : Type := Z * Z * Z * Z * Z.

Definition f (t : nat) (b c d : Z) : Z :=
  if (t <? 20)%nat then Z.lor (Z.land b c) (Z.land (Z.lxor b (2 ^ 32 - 1)) d)
  else if (t <? 40)%nat then Z.lxor (Z.lxor b c) d
  else if (t <? 60)%nat then
    Z.lor (Z.lor (Z.land b c) (Z.land b d)) (Z.land c d)
  else Z.lxor (Z.lxor b c) d.

Definition K (t : nat) : Z :=
  if (t <? 20)%nat then 0x5A827999
  else if (t <? 40)%nat then 0x6ED9EBA1
  else if (t <? 60)%nat then 0x8F1BBCDC
  else 0xCA62C1D6.

Definition round (st : state * nat) (w : Z) : state * nat :=
  let '((a, b, c, d, e), t) := st in
  let temp := w32 (rotl 5 a + f t b c d + e + K t + w) in
  ((temp, a, rotl 30 b, c, d), S t).

Definition block (h : state) (bs : list Z) : state :=
  let '(h0, h1, h2, h3, h4) := h in
  let w := rev (schedule 64 (rev (words 16 bs))) in
  let '((a, b, c, d, e), _) := fold_left round w (h, O) in
  (w32 (h0 + a), w32 (h1 + b), w32 (h2 + c), w32 (h3 + d), w32 (h4 + e)).

Fixpoint blocks (n : nat) (h : state) (bs : list Z) : state :=
  match n with
  | O => h
  | S n' => blocks n' (block h (firstn 64 bs)) (skipn 64 bs)
  end.

Definition init : state :=
  (0x67452301, 0xEFCDAB89, 0x98BADCFE, 0x10325476, 0xC3D2E1F0).

Definition digest (msg : list Z) : list Z :=
  let p := pad msg in
  let '(h0, h1, h2, h3, h4) := blocks (length p / 64) init p in
  be_bytes 4 h0 ++ be_bytes 4 h1 ++ be_bytes 4 h2 ++ be_bytes 4 h3
    ++ be_bytes 4 h4.

End Sha1.

(** Modelled from the spec: [SHA_CTX], [SHA1_Init], [SHA1_Update] and
    [SHA1_Final] come from a header outside [src/]; the spec calls them a
    fixed-length cryptographic digest.  They are taken to be the streaming
    interface of SHA-1 (FIPS 180): the context is the message fed so far
    and the final step digests it into 20 bytes. *)
Definition SHA_CTX : Type := list Z.
Definition SHA1_Init : SHA_CTX := [].
Definition SHA1_Update (ctx : SHA_CTX) (data : list Z) : SHA_CTX := ctx ++ data.
Definition SHA1_Final (ctx : SHA_CTX) : list Z := Sha1.digest ctx.

(** The [%02x] conversion of an [unsigned char]. *)
Definition hex_digit (n : Z) : ascii :=
  match n with
  | 0 => "0" | 1 => "1" | 2 => "2" | 3 => "3" | 4 => "4" | 5 => "5"
  | 6 => "6" | 7 => "7" | 8 => "8" | 9 => "9" | 10 => "a" | 11 => "b"
  | 12 => "c" | 13 => "d" | 14 => "e" | _ => "f"
  end%char.

Definition hex02 (b : Z) : string :=
  String (hex_digit (b / 16)) (String (hex_digit (b mod 16)) EmptyString).

Fixpoint hex_string (bs : list Z) : string :=
  match bs with
  | [] => EmptyString
  | b :: bs' => hex02 b +:+ hex_string bs'
  end.

(** ** Data of the version-control backend *)

(** A commit identifier. *)
Definition git_oid : Type := N.

Definition git_oid_equal (a b : git_oid) : bool := N.eqb a b.

(** What a reference points at: a commit, or another reference by name. *)
Inductive ref_target : Type :=
| OidTarget (id : git_oid)
| SymbolicTarget (name : string).

(** A looked-up reference: the repository that owns it, its name and the
    target it had when it was looked up. *)
Record git_reference : Type := {
  ref_owner : string;
  ref_name : string;
  ref_points_at : ref_target
}.

Record git_remote : Type := {
  remote_owner : string;
  remote_name : string;
  remote_url : string
}.

(** [enum remote_type { OTHER, HTTPS, SSH }]. *)
Inductive remote_type : Type := OTHER | HTTPS | SSH.

(** Status flags of [git2/status.h]. *)
Definition GIT_STATUS_CURRENT : Z := 0.
Definition GIT_STATUS_INDEX_NEW : Z := Z.shiftl 1 0.
Definition GIT_STATUS_INDEX_MODIFIED : Z := Z.shiftl 1 1.
Definition GIT_STATUS_WT_NEW : Z := Z.shiftl 1 7.
Definition GIT_STATUS_WT_MODIFIED : Z := Z.shiftl 1 8.
Definition GIT_STATUS_WT_DELETED : Z := Z.shiftl 1 9.
Definition GIT_STATUS_IGNORED : Z := Z.shiftl 1 14.

(** The state of a repository on disk. *)
Record git_repository : Type := {
  repo_is_bare : bool;
  repo_head : option string;            (* the branch HEAD names *)
  repo_refs : gmap string ref_target;
  repo_upstream : gmap string string;   (* branch -> tracking reference *)
  repo_remotes : gmap string string;    (* remote name -> url *)
  repo_status : list (string * Z);      (* the status report: path, flags *)
  repo_workdir : option git_oid;        (* the commit the files reflect *)
  repo_config : gmap string string
}.

Definition with_refs (r : git_repository) (refs : gmap string ref_target)
  : git_repository :=
  {| repo_is_bare := repo_is_bare r; repo_head := repo_head r;
     repo_refs := refs; repo_upstream := repo_upstream r;
     repo_remotes := repo_remotes r; repo_status := repo_status r;
     repo_workdir := repo_workdir r; repo_config := repo_config r |}.

Definition with_config (r : git_repository) (cfg : gmap string string)
  : git_repository :=
  {| repo_is_bare := repo_is_bare r; repo_head := repo_head r;
     repo_refs := repo_refs r; repo_upstream := repo_upstream r;
     repo_remotes := repo_remotes r; repo_status := repo_status r;
     repo_workdir := repo_workdir r; repo_config := cfg |}.

Definition with_worktree (r : git_repository) (st : list (string * Z))
    (at_commit : option git_oid) : git_repository :=
  {| repo_is_bare := repo_is_bare r; repo_head := repo_head r;
     repo_refs := repo_refs r; repo_upstream := repo_upstream r;
     repo_remotes := repo_remotes r; repo_status := st;
     repo_workdir := at_commit; repo_config := repo_config r |}.

Definition no_repository : git_repository :=
  {| repo_is_bare := false; repo_head := None; repo_refs := ∅;
     repo_upstream := ∅; repo_remotes := ∅; repo_status := [];
     repo_workdir := None; repo_config := ∅ |}.

(** A [git_repository *]: NULL, the dummy, or an open repository, named by
    the directory it was opened from. *)
Inductive repo_ptr : Type :=
| NULL
| dummy_git_repository
| Repo (path : string).

(** Credentials handed to the transport. *)
Inductive git_cred : Type :=
| cred_userpass_plaintext (username : option string) (password : string)
| cred_ssh_key (username publickey privatekey : option string)
    (passphrase : string).

(** Operations of the backend that do more than read, as the trace records
    them. *)
Inductive backend_call : Type :=
| call_status_foreach (repo : string)
| call_merge_base (repo : string) (one two : git_oid)
| call_reference_set_target (repo name : string) (id : git_oid)
| call_object_lookup (repo : string) (id : git_oid)
| call_reset (repo : string) (id : git_oid)
| call_remote_push (repo refspec : string) (cred : option git_cred)
| call_remote_fetch (repo url : string) (cred : option git_cred)
| call_clone (url localdir branch : string) (cred : option git_cred)
| call_config_set_string (repo key value : string).

(** ** The world *)

(** [struct preferences]: the two fields this file touches, and the rest. *)
Record preferences : Type := {
  cloud_storage_password : option string;
  cloud_storage_email_encoded : option string;
  other_preferences : gmap string string
}.

Record world : Type := {
  prefs : preferences;
  fs : gmap string bool;               (* stat: path -> S_ISDIR *)
  repos : gmap string git_repository;  (* the repositories on disk *)
  reports : list string;               (* the report sink, oldest first *)
  calls : list backend_call;           (* backend trace, oldest first *)
  allocs : nat                         (* format_string calls so far *)
}.

(** What the environment answers. *)
Record backend : Type := {
  USE_LIBGIT23_API : bool;
  default_directory : string;
  alloc_ok : nat -> bool;
  last_error : string;
  proxy_string : option string;
  url_user : string -> option string;
  merge_base_of : string -> git_oid -> git_oid -> option git_oid;
  set_target_ok : string -> string -> git_oid -> bool;
  lookup_ok : string -> git_oid -> bool;
  hard_reset_ok : string -> git_oid -> bool;
  push_ok : string -> string -> bool;
  fetched : string -> option (list (string * ref_target));
  cloned : string -> string -> option git_repository;
  missing_argument : string  (* what a [%s] without an argument prints *)
}.

(** ** The state monad *)

Definition M (A : Type) : Type := world -> A * world.

Definition ret {A : Type} (a : A) : M A := fun w => (a, w).

Definition bind {A B : Type} (m : M A) (k : A -> M B) : M B :=
  fun w => let (a, w') := m w in k a w'.

Notation "x <- m ;; k" := (bind m (fun x => k))
  (at level 100, m at next level, right associativity).
Notation "m ;; k" := (bind m (fun _ => k))
  (at level 100, right associativity).

Definition gets {A : Type} (f : world -> A) : M A := fun w => (f w, w).

Definition modify (f : world -> world) : M unit := fun w => (tt, f w).

Definition set_prefs (p : preferences) (w : world) : world :=
  {| prefs := p; fs := fs w; repos := repos w; reports := reports w;
     calls := calls w; allocs := allocs w |}.

Definition set_disk (f : gmap string bool) (rs : gmap string git_repository)
    (w : world) : world :=
  {| prefs := prefs w; fs := f; repos := rs; reports := reports w;
     calls := calls w; allocs := allocs w |}.

Definition set_repos (rs : gmap string git_repository) (w : world) : world :=
  set_disk (fs w) rs w.

Definition add_report (msg : string) (w : world) : world :=
  {| prefs := prefs w; fs := fs w; repos := repos w;
     reports := reports w ++ [msg]; calls := calls w; allocs := allocs w |}.

Definition add_call (c : backend_call) (w : world) : world :=
  {| prefs := prefs w; fs := fs w; repos := repos w; reports := reports w;
     calls := calls w ++ [c]; allocs := allocs w |}.

Definition add_alloc (w : world) : world :=
  {| prefs := prefs w; fs := fs w; repos := repos w; reports := reports w;
     calls := calls w; allocs := S (allocs w) |}.

(** The repository a handle names. *)
Definition repo_at (h : string) (w : world) : git_repository :=
  default no_repository (repos w !! h).

Definition update_repo (h : string) (f : git_repository -> git_repository)
  : M unit :=
  modify (fun w => set_repos (alter f h (repos w)) w).

Definition trace (c : backend_call) : M unit := modify (add_call c).

(** Modelled from the spec: [report_error] is declared in [dive.h], outside
    [src/]; the spec's reporting channel is one sink accepting a formatted
    message.  It appends the message and returns the error code [-1] that
    its callers pass on. *)
Definition report_error (msg : string) : M Z :=
  fun w => (-1, add_report msg w).

(** ** Backend primitives *)

Section Program.

Variable E : backend.

(** Modelled from the spec: [format_string] is declared in [membuffer.h],
    outside [src/].  It returns the formatted text in a fresh allocation,
    or NULL when the allocation fails; the caller passes the text already
    formatted. *)
Definition format_string (text : string) : M (option string) :=
  fun w => (if alloc_ok E (allocs w) then Some text else None, add_alloc w).

(** Modelled from the spec: [system_default_directory], declared outside
    [src/], names the configured cache root directory. *)
Definition system_default_directory : string := default_directory E.

Definition git_repository_is_bare (repo : string) : M bool :=
  gets (fun w => repo_is_bare (repo_at repo w)).

(** 1 when HEAD names the branch, 0 when it does not. *)
Definition git_branch_is_head (branch : git_reference) : M Z :=
  gets (fun w =>
          match repo_head (repo_at (ref_owner branch) w) with
          | Some h => if String.eqb h (ref_name branch) then 1 else 0
          | None => 0
          end).

Definition git_reference_name (r : git_reference) : string := ref_name r.

(** The commit of a direct reference, NULL for a symbolic one. *)
Definition git_reference_target (r : git_reference) : option git_oid :=
  match ref_points_at r with
  | OidTarget id => Some id
  | SymbolicTarget _ => None
  end.

(** 0 exactly when both references have the same kind and target. *)
Definition git_reference_cmp (r1 r2 : git_reference) : Z :=
  match ref_points_at r1, ref_points_at r2 with
  | OidTarget a, OidTarget b => if N.eqb a b then 0 else 1
  | SymbolicTarget a, SymbolicTarget b => if String.eqb a b then 0 else 1
  | SymbolicTarget _, OidTarget _ => -1
  | OidTarget _, SymbolicTarget _ => 1
  end.

Fixpoint status_entries (cb : string -> Z -> M Z) (entries : list (string * Z))
  : M Z :=
  match entries with
  | [] => ret 0
  | (path, flags) :: rest =>
      r <- cb path flags;;
      if r =? 0 then status_entries cb rest else ret r
  end.

(** The callback runs on each entry of the status report; the first
    non-zero answer stops the walk and is returned. *)
Definition git_status_foreach (repo : string) (cb : string -> Z -> M Z) : M Z :=
  trace (call_status_foreach repo);;
  entries <- gets (fun w => repo_status (repo_at repo w));;
  status_entries cb entries.

Definition git_merge_base (repo : string) (one two : git_oid)
  : M (option git_oid) :=
  trace (call_merge_base repo one two);;
  ret (merge_base_of E repo one two).

(** Moves the reference to [id]; a failure moves nothing. *)
Definition git_reference_set_target (r : git_reference) (id : git_oid) : M Z :=
  trace (call_reference_set_target (ref_owner r) (ref_name r) id);;
  if set_target_ok E (ref_owner r) (ref_name r) id then
    update_repo (ref_owner r)
      (fun g => with_refs g (<[ref_name r := OidTarget id]> (repo_refs g)));;
    ret 0
  else ret (-1).

Definition git_object_lookup (repo : string) (id : git_oid) : M Z :=
  trace (call_object_lookup repo id);;
  ret (if lookup_ok E repo id then 0 else -1).

(** What a hard reset leaves of the status report: untracked and ignored
    files. *)
Definition survives_reset (entry : string * Z) : bool :=
  negb (Z.land (snd entry) (Z.lor GIT_STATUS_WT_NEW GIT_STATUS_IGNORED) =? 0).

Definition hard_reset (id : git_oid) (g : git_repository) : git_repository :=
  let refs := match repo_head g with
              | Some h => <[h := OidTarget id]> (repo_refs g)
              | None => repo_refs g
              end in
  with_worktree (with_refs g refs) (filter survives_reset (repo_status g))
    (Some id).

(** [git_reset] with [GIT_RESET_HARD]: the checked-out branch, the index
    and the files move to [id]; a failure moves nothing. *)
Definition git_reset (repo : string) (id : git_oid) : M Z :=
  trace (call_reset repo id);;
  if hard_reset_ok E repo id then
    update_repo repo (hard_reset id);;
    ret 0
  else ret (-1).

(** A credentials callback, called with the url and the user it names. *)
Definition cred_cb : Type := string -> option string -> M git_cred.

(** The transport asks the installed callback, if any. *)
Definition acquire_cred (cb : option cred_cb) (url : string)
  : M (option git_cred) :=
  match cb with
  | None => ret None
  | Some ask => c <- ask url (url_user E url);; ret (Some c)
  end.

Definition git_remote_push (origin : git_remote) (refspec : string)
    (cb : option cred_cb) : M Z :=
  cred <- acquire_cred cb (remote_url origin);;
  trace (call_remote_push (remote_owner origin) refspec cred);;
  ret (if push_ok E (remote_owner origin) refspec then 0 else -1).

Definition apply_fetched (ups : list (string * ref_target))
    (g : git_repository) : git_repository :=
  with_refs g
    (fold_left (fun refs u => <[fst u := snd u]> refs) ups (repo_refs g)).

Definition git_remote_fetch (origin : git_remote) (cb : option cred_cb) : M Z :=
  cred <- acquire_cred cb (remote_url origin);;
  trace (call_remote_fetch (remote_owner origin) (remote_url origin) cred);;
  match fetched E (remote_owner origin) with
  | Some ups => update_repo (remote_owner origin) (apply_fetched ups);; ret 0
  | None => ret (-1)
  end.

Definition git_repository_open (path : string) : M (option string) :=
  gets (fun w => match repos w !! path with
                 | Some _ => Some path
                 | None => None
                 end).

Definition git_remote_lookup (repo name : string) : M (option git_remote) :=
  gets (fun w => match repo_remotes (repo_at repo w) !! name with
                 | Some url => Some {| remote_owner := repo;
                                       remote_name := name;
                                       remote_url := url |}
                 | None => None
                 end).

Definition lookup_reference (repo name : string) : M (option git_reference) :=
  gets (fun w => match repo_refs (repo_at repo w) !! name with
                 | Some t => Some {| ref_owner := repo; ref_name := name;
                                     ref_points_at := t |}
                 | None => None
                 end).

(** [git_branch_lookup] with [GIT_BRANCH_LOCAL]. *)
Definition git_branch_lookup (repo branch : string) : M (option git_reference) :=
  lookup_reference repo ("refs/heads/" +:+ branch).

Definition git_branch_upstream (local : git_reference)
  : M (option git_reference) :=
  up <- gets (fun w =>
                repo_upstream (repo_at (ref_owner local) w) !! ref_name local);;
  match up with
  | Some name => lookup_reference (ref_owner local) name
  | None => ret None
  end.

Definition git_config_set_string (repo key value : string) : M unit :=
  trace (call_config_set_string repo key value);;
  update_repo repo (fun g => with_config g (<[key := value]> (repo_config g))).

(** A successful clone leaves a repository in the directory [localdir]. *)
Definition git_clone (url localdir branch : string) (cb : option cred_cb)
  : M (option string) :=
  cred <- acquire_cred cb url;;
  trace (call_clone url localdir branch cred);;
  match cloned E url branch with
  | Some g =>
      modify (fun w => set_disk (<[localdir := true]> (fs w))
                                (<[localdir := g]> (repos w)) w);;
      ret (Some localdir)
  | None => ret None
  end.

(** [stat]: nothing when it fails, else whether the path is a directory. *)
Definition stat (path : string) : M (option bool) :=
  gets (fun w => fs w !! path).

(** [strdup] of the stored password, of the empty string when unset. *)
Definition password_or_empty : M string :=
  gets (fun w => match cloud_storage_password (prefs w) with
                 | Some p => p
                 | None => ""
                 end).

(** ** The program *)

(** [get_local_dir]: the text the [format_string] call produces. *)
Definition local_dir_name (remote branch : string) : string :=
  let ctx := SHA1_Init in
  let ctx := SHA1_Update ctx (bytes_of_string remote) in
  let ctx := SHA1_Update ctx [0] in
  let ctx := SHA1_Update ctx (bytes_of_string branch) in
  let hash := SHA1_Final ctx in
  system_default_directory +:+ "/" +:+ hex_string (firstn 8 hash).

Definition get_local_dir (remote branch : string) : M (option string) :=
  format_string (local_dir_name remote branch).

(** [status &= ~GIT_STATUS_CURRENT | GIT_STATUS_IGNORED]: the complement
    binds tighter than the disjunction, and the [int] mask is converted to
    [unsigned int]. *)
Definition clean_mask : Z :=
  Z.lor (Z.lnot GIT_STATUS_CURRENT) GIT_STATUS_IGNORED mod 2 ^ 32.

Definition check_clean (path : string) (status : Z) : M Z :=
  let status := Z.land status clean_mask in
  if status =? 0 then ret 0
  else
    report_error
      ("WARNING: Git cache directory modified (path " +:+ path +:+ ")");;
    ret 1.

Definition reset_to_remote (repo : string) (local : git_reference)
    (new_id : git_oid) : M Z :=
  bare <- git_repository_is_bare repo;;
  is_head <- git_branch_is_head local;;
  if bare || negb (is_head =? 1) then
    rc <- git_reference_set_target local new_id;;
    if negb (rc =? 0) then
      report_error "Could not update local ref to newer remote ref"
    else
      report_error "Updated local branch from remote";;
      ret 0
  else
    rc <- git_object_lookup repo new_id;;
    if negb (rc =? 0) then report_error "Could not look up remote commit"
    else
      rc <- git_reset repo new_id;;
      if negb (rc =? 0) then
        report_error "Local head checkout failed after update"
      else
        report_error "Updated local information from remote";;
        ret 0.

Definition credential_ssh_cb (url : string) (username_from_url : option string)
  : M git_cred :=
  priv_key <- format_string (system_default_directory +:+ "/" +:+ "ssrf_remote.key");;
  passphrase <- password_or_empty;;
  ret (cred_ssh_key username_from_url None priv_key passphrase).

Definition credential_https_cb (url : string)
    (username_from_url : option string) : M git_cred :=
  username <- gets (fun w => cloud_storage_email_encoded (prefs w));;
  password <- password_or_empty;;
  ret (cred_userpass_plaintext username password).

(** The [callbacks.credentials] field the [USE_LIBGIT23_API] blocks set. *)
Definition credentials_for (rt : remote_type) : option cred_cb :=
  if USE_LIBGIT23_API E then
    match rt with
    | SSH => Some credential_ssh_cb
    | HTTPS => Some credential_https_cb
    | OTHER => None
    end
  else None.

Definition update_remote (repo : string) (origin : git_remote)
    (local remote : git_reference) (rt : remote_type) : M Z :=
  let name := git_reference_name local in
  rc <- git_remote_push origin name (credentials_for rt);;
  if negb (rc =? 0) then
    report_error
      ("Unable to update remote with current local cache state ("
         +:+ last_error E +:+ ")")
  else
    report_error "Local cache more recent than remote";;
    ret 0.

Definition try_to_update (repo : string) (origin : git_remote)
    (local remote : git_reference) (rt : remote_type) : M Z :=
  if git_reference_cmp local remote =? 0 then ret 0
  else
    dirty <- git_status_foreach repo check_clean;;
    if negb (dirty =? 0) then
      report_error "local cached copy is dirty, skipping update"
    else
      match git_reference_target local, git_reference_target remote with
      | Some local_id, Some remote_id =>
          found <- git_merge_base repo local_id remote_id;;
          match found with
          | None =>
              report_error
                "Unable to find common commit of local and remote branches"
          | Some base =>
              if git_oid_equal base local_id then
                reset_to_remote repo local remote_id
              else if git_oid_equal base remote_id then
                update_remote repo origin local remote rt
              else
                bare <- git_repository_is_bare repo;;
                if bare then
                  report_error
                    "Local and remote have diverged, merge of bare branch needed"
                else
                  is_head <- git_branch_is_head local;;
                  if negb (is_head =? 1) then
                    report_error
                      "Local and remote do not match, local branch not HEAD - cannot update"
                  else
                    report_error
                      "Local and remote have diverged, need to merge"
          end
      | _, _ => report_error "Unable to get local or remote SHA1"
      end.

(** The function ends without a [return]; its callers ignore the value. *)
Definition check_remote_status (repo : string) (origin : git_remote)
    (branch : string) (rt : remote_type) : M unit :=
  local_ref <- git_branch_lookup repo branch;;
  match local_ref with
  | None =>
      report_error ("Git cache branch " +:+ branch +:+ " no longer exists");;
      ret tt
  | Some local_ref =>
      remote_ref <- git_branch_upstream local_ref;;
      match remote_ref with
      | None =>
          report_error
            ("Git cache branch " +:+ branch
               +:+ " no longer has an upstream branch");;
          ret tt
      | Some remote_ref =>
          try_to_update repo origin local_ref remote_ref rt;;
          ret tt
      end
  end.

Definition remote_type_of (remote : string) : remote_type :=
  if has_prefix "ssh://" remote then SSH
  else if has_prefix "https://" remote then HTTPS
  else OTHER.

Definition update_local_repo (localdir remote branch : string) : M repo_ptr :=
  opened <- git_repository_open localdir;;
  match opened with
  | None =>
      report_error
        ("Unable to open git cache repository at " +:+ localdir +:+ ": "
           +:+ last_error E);;
      ret NULL
  | Some repo =>
      let rt := remote_type_of remote in
      match rt, proxy_string E with
      | HTTPS, Some proxy => git_config_set_string repo "http.proxy" proxy
      | _, _ => ret tt
      end;;
      origin <- git_remote_lookup repo "origin";;
      match origin with
      | None =>
          report_error
            ("Repository '" +:+ remote +:+ "' origin lookup failed ("
               +:+ last_error E +:+ ")");;
          ret (Repo repo)
      | Some origin =>
          error <- git_remote_fetch origin (credentials_for rt);;
          (if negb (error =? 0) then
             report_error ("Unable to fetch remote '" +:+ remote +:+ "'");;
             ret tt
           else check_remote_status repo origin branch rt);;
          ret (Repo repo)
      end
  end.

Definition create_local_repo (localdir remote branch : string) : M repo_ptr :=
  cloned_repo <- git_clone remote localdir branch
                   (credentials_for (remote_type_of remote));;
  match cloned_repo with
  | None =>
      report_error
        ("git clone of " +:+ remote +:+ " failed (" +:+ last_error E +:+ ")");;
      ret NULL
  | Some repo => ret (Repo repo)
  end.

(** The corruption report passes no argument for its [%s]: the code does
    not fix what is printed in its place (reading the missing argument is
    undefined in C), so that part of the message is the environment's. *)
Definition get_remote_repo (localdir remote branch : string) : M repo_ptr :=
  st <- stat localdir;;
  match st with
  | Some is_dir =>
      if negb is_dir then
        report_error
          ("local git cache at '" +:+ missing_argument E +:+ "' is corrupt");;
        ret NULL
      else update_local_repo localdir remote branch
  | None => create_local_repo localdir remote branch
  end.

Definition is_lower (c : ascii) : bool :=
  ((nat_of_ascii "a" <=? nat_of_ascii c)%nat
   && (nat_of_ascii c <=? nat_of_ascii "z")%nat)%bool.

(** [while ((c = *p++) >= 'a' && c <= 'z');]: the character that ended the
    loop and the string [p] is left at. *)
Fixpoint scan_scheme (p : string) : ascii * string :=
  match p with
  | EmptyString => (NUL, EmptyString)
  | String c p' => if is_lower c then scan_scheme p' else (c, p')
  end.

(** The three tests that open [is_remote_git_repository]: false where the
    function returns NULL at once. *)
Definition looks_remote (remote : string) : bool :=
  let (c, p) := scan_scheme remote in
  if negb (Ascii.eqb c ":") then false
  else
    match p with
    | String c1 p1 =>
        if negb (Ascii.eqb c1 "/") then false
        else match p1 with
             | String c2 _ => Ascii.eqb c2 "/"
             | EmptyString => false
             end
    | EmptyString => false
    end.

(** The [https://] block: the account and the url with the account taken
    out, when there is one to take. *)
Definition split_account (remote : string) : option (string * string) :=
  if has_prefix "https://" remote then
    match strchr remote "@" with
    | Some at_ =>
        match strchr (str_drop 8 remote) "/" with
        | Some s =>
            if (at_ <? 8 + s)%nat then
              Some (str_take (at_ - 8) (str_drop 8 remote),
                    str_take 8 remote +:+ str_drop (S at_) remote)
            else None
        | None => None
        end
    | None => None
    end
  else None.

Definition set_email_encoded (v : option string) (p : preferences)
  : preferences :=
  {| cloud_storage_password := cloud_storage_password p;
     cloud_storage_email_encoded := v;
     other_preferences := other_preferences p |}.

(** Returns the repository and what the caller's buffer [remote] holds
    afterwards: the [memmove] edits it in place. *)
Definition is_remote_git_repository (remote branch : string)
  : M (repo_ptr * string) :=
  if negb (looks_remote remote) then ret (NULL, remote)
  else
    let skipped := if has_prefix "file://" remote then 7%nat else 0%nat in
    let before := str_take skipped remote in
    let remote := str_drop skipped remote in
    remote <- match split_account remote with
              | Some (account, rest) =>
                  modify (fun w =>
                            set_prefs (set_email_encoded (Some account) (prefs w)) w);;
                  ret rest
              | None => ret remote
              end;;
    localdir <- get_local_dir remote branch;;
    match localdir with
    | None => ret (NULL, before +:+ remote)
    | Some localdir =>
        repo <- get_remote_repo localdir remote branch;;
        ret (repo, before +:+ remote)
    end.

(** [while (flen && filename[--flen] != '[') blen++;] *)
Fixpoint find_bracket (filename : string) (flen blen : nat) : nat * nat :=
  match flen with
  | O => (O, blen)
  | S flen' =>
      if Ascii.eqb (char_at filename flen') "[" then (flen', blen)
      else find_bracket filename flen' (S blen)
  end.

(** [while (flen && filename[flen-1] == '/') { flen--; offset++; }] *)
Fixpoint skip_slashes (filename : string) (flen offset : nat) : nat * nat :=
  match flen with
  | O => (O, offset)
  | S flen' =>
      if Ascii.eqb (char_at filename flen') "/"
      then skip_slashes filename flen' (S offset)
      else (flen, offset)
  end.

(** The scan that opens [is_git_repository], up to its point of no return:
    [flen], [blen] and [offset] there, or nothing where it returns NULL. *)
Definition locator_shape (filename : string) : option (nat * nat * nat) :=
  let flen := String.length filename in
  match flen with
  | O => None
  | S flen =>
      if negb (Ascii.eqb (char_at filename flen) "]") then None
      else
        let (flen, blen) := find_bracket filename flen O in
        let (flen, offset) := skip_slashes filename flen 1%nat in
        match flen with
        | O => None
        | S _ => Some (flen, blen, offset)
        end
  end.

(** Returns the repository and what [*branchp] was set to, if it was. *)
Definition is_git_repository (filename : string)
  : M (repo_ptr * option string) :=
  match locator_shape filename with
  | None => ret (NULL, None)
  | Some (flen, blen, offset) =>
      loc <- format_string (str_take flen filename);;
      match loc with
      | None => ret (dummy_git_repository, Some filename)
      | Some loc =>
          branch <- format_string
                      (str_take blen (str_drop (flen + offset) filename));;
          match branch with
          | None => ret (dummy_git_repository, Some filename)
          | Some branch =>
              found <- is_remote_git_repository loc branch;;
              let (repo, loc) := found in
              match repo with
              | NULL =>
                  st <- stat loc;;
                  match st with
                  | Some true =>
                      opened <- git_repository_open loc;;
                      match opened with
                      | None => ret (dummy_git_repository, Some filename)
                      | Some repo => ret (Repo repo, Some branch)
                      end
                  | _ => ret (dummy_git_repository, Some filename)
                  end
              | _ => ret (repo, Some branch)
              end
          end
      end
  end.

End Program.

(** ** Vocabulary of the statements *)

(** What [is_git_repository] passes to its two [format_string] calls: the
    path and the branch text, where the scan reaches the point of no
    return. *)
Definition parse_locator (filename : string) : option (string * string) :=
  match locator_shape filename with
  | Some (flen, blen, offset) =>
      Some (str_take flen filename,
            str_take blen (str_drop (flen + offset) filename))
  | None => None
  end.

Fixpoint all_lower (s : string) : bool :=
  match s with
  | EmptyString => true
  | String c s' => is_lower c && all_lower s'
  end.

(** A digit of lowercase hexadecimal. *)
Definition is_lower_hex (c : ascii) : bool :=
  existsb (Ascii.eqb c) (list_ascii_of_string "0123456789abcdef").

Fixpoint all_lower_hex (s : string) : bool :=
  match s with
  | EmptyString => true
  | String c s' => is_lower_hex c && all_lower_hex s'
  end.

(** The bytes [get_local_dir] feeds to the digest. *)
Definition address_preimage (remote branch : string) : list Z :=
  bytes_of_string remote ++ 0 :: bytes_of_string branch.

(** [k] path separators. *)
Fixpoint slashes (k : nat) : string :=
  match k with
  | O => EmptyString
  | S k' => String "/" (slashes k')
  end.

(** [s] begins with at least [least] lowercase letters followed by
    [://]. *)
Definition scheme_prefixed (least : nat) (s : string) : Prop :=
  exists letters rest,
    (least <= String.length letters)%nat
    /\ all_lower letters = true
    /\ s = letters +:+ "://" +:+ rest.

(** The status walk of [try_to_update] answers non-zero. *)
Definition tree_dirty (repo : string) (w : world) : Prop :=
  fst (git_status_foreach repo check_clean w) <> 0.

Definition tree_clean (repo : string) (w : world) : Prop :=
  fst (git_status_foreach repo check_clean w) = 0.

(** The spec's cleanliness predicate: flags outside [{current, ignored}]. *)
Definition flagged_outside_current_ignored (flags : Z) : bool :=
  negb (Z.land flags (Z.lnot (Z.lor GIT_STATUS_CURRENT GIT_STATUS_IGNORED))
        =? 0).

(** The target the repository records for a reference. *)
Definition local_ref_target (r : git_reference) (w : world)
  : option ref_target :=
  repo_refs (repo_at (ref_owner r) w) !! ref_name r.

(** HEAD names the branch. *)
Definition checked_out (r : git_reference) (w : world) : bool :=
  match repo_head (repo_at (ref_owner r) w) with
  | Some h => String.eqb h (ref_name r)
  | None => false
  end.

(** Fast-forward of a branch that is not checked out: the backend is asked
    to move the reference, and the reference moves when it agrees. *)
Definition moved_reference (E : backend) (local : git_reference)
    (id : git_oid) (before : world) (run : Z * world) : Prop :=
  calls (snd run)
  = calls before
      ++ [call_reference_set_target (ref_owner local) (ref_name local) id]
  /\ if set_target_ok E (ref_owner local) (ref_name local) id then
       fst run = 0
       /\ local_ref_target local (snd run) = Some (OidTarget id)
       /\ repos (snd run)
          = alter (fun g => with_refs g
                              (<[ref_name local := OidTarget id]> (repo_refs g)))
              (ref_owner local) (repos before)
       /\ reports (snd run)
          = reports before ++ ["Updated local branch from remote"]
     else
       fst run = -1
       /\ repos (snd run) = repos before
       /\ reports (snd run)
          = reports before
              ++ ["Could not update local ref to newer remote ref"].

(** Fast-forward of the checked-out branch: the commit is looked up and
    the working tree is reset hard to it. *)
Definition reset_worktree (E : backend) (repo : string)
    (local : git_reference) (id : git_oid) (before : world)
    (run : Z * world) : Prop :=
  if lookup_ok E repo id then
    calls (snd run)
    = calls before ++ [call_object_lookup repo id; call_reset repo id]
    /\ if hard_reset_ok E repo id then
         fst run = 0
         /\ local_ref_target local (snd run) = Some (OidTarget id)
         /\ repos (snd run) = alter (hard_reset id) repo (repos before)
         /\ reports (snd run)
            = reports before ++ ["Updated local information from remote"]
       else
         fst run = -1
         /\ repos (snd run) = repos before
         /\ reports (snd run)
            = reports before ++ ["Local head checkout failed after update"]
  else
    calls (snd run) = calls before ++ [call_object_lookup repo id]
    /\ fst run = -1
    /\ repos (snd run) = repos before
    /\ reports (snd run)
       = reports before ++ ["Could not look up remote commit"].

(** The report of each way histories can have diverged. *)
Definition diverged_report (bare is_checked_out : bool) : string :=
  if bare then "Local and remote have diverged, merge of bare branch needed"
  else if negb is_checked_out then
    "Local and remote do not match, local branch not HEAD - cannot update"
  else "Local and remote have diverged, need to merge".

(** A computation keeps the invariant [I] and answers within [P]. *)
Definition ensures {A : Type} (I : world -> Prop) (P : A -> Prop) (m : M A)
  : Prop :=
  forall w, I w -> I (snd (m w)) /\ P (fst (m w)).

Definition keeps {A : Type} (I : world -> Prop) (m : M A) : Prop :=
  ensures I (fun _ => True) m.

(** The preferences agree on every field but the encoded account. *)
Definition same_but_account (p q : preferences) : Prop :=
  cloud_storage_password q = cloud_storage_password p
  /\ other_preferences q = other_preferences p.

(** The credentials a traced call carried, for the calls that go over the
    network. *)
Definition call_cred (c : backend_call) : option (option git_cred) :=
  match c with
  | call_remote_push _ _ cred => Some cred
  | call_remote_fetch _ _ cred => Some cred
  | call_clone _ _ _ cred => Some cred
  | _ => None
  end.

(** The call, if it went over the network, was given the stored account
    and password as plain credentials. *)
Definition carries (account : string) (password : option string)
    (c : backend_call) : Prop :=
  forall cred,
    call_cred c = Some cred ->
    cred = Some (cred_userpass_plaintext (Some account) (default "" password)).

(** The account is stored, the other preferences are as given, and every
    call traced after [base] carries the account. *)
Definition account_kept (account : string) (password : option string)
    (others : gmap string string) (base : list backend_call) (w : world)
  : Prop :=
  cloud_storage_email_encoded (prefs w) = Some account
  /\ cloud_storage_password (prefs w) = password
  /\ other_preferences (prefs w) = others
  /\ exists new, calls w = base ++ new /\ Forall (carries account password) new.

(** A repository pointer other than the dummy. *)
Definition not_dummy (r : repo_ptr) : Prop := r <> dummy_git_repository.

(** The warning [check_clean] reports for a path. *)
Definition dirty_warning (path : string) : string :=
  "WARNING: Git cache directory modified (path " +:+ path +:+ ")".

(** The call, if it went over the network, was given no credentials. *)
Definition uncredentialed (c : backend_call) : Prop :=
  forall cred, call_cred c = Some cred -> cred = None.

(** The call, if it went over the network, was given an ssh key: no public
    key, the private key file under the cache root (NULL when its name
    could not be allocated) and the stored password, or the empty string,
    as passphrase. *)
Definition ssh_keyed (E : backend) (password : option string)
    (c : backend_call) : Prop :=
  forall cred,
    call_cred c = Some cred ->
    exists user key,
      cred = Some (cred_ssh_key user None key (default "" password))
      /\ (key = None
          \/ key = Some (default_directory E +:+ "/ssrf_remote.key")).

(** The trace is [base] followed by calls that are all [good]. *)
Definition traced_since (base : list backend_call)
    (good : backend_call -> Prop) (w : world) : Prop :=
  exists new, calls w = base ++ new /\ Forall good new.

(** ** Sample worlds *)

Module Samples.

Definition no_prefs : preferences :=
  {| cloud_storage_password := None; cloud_storage_email_encoded := None;
     other_preferences := ∅ |}.

(** A backend on which everything succeeds and the merge base is the
    local commit. *)
Definition willing : backend :=
  {| USE_LIBGIT23_API := true; default_directory := "/home/diver/.subsurface";
     alloc_ok := fun _ => true; last_error := "failed"; proxy_string := None;
     url_user := fun _ => None;
     merge_base_of := fun _ one _ => Some one;
     set_target_ok := fun _ _ _ => true; lookup_ok := fun _ _ => true;
     hard_reset_ok := fun _ _ => true; push_ok := fun _ _ => true;
     fetched := fun _ => Some [];
     cloned := fun _ _ => Some no_repository;
     missing_argument := "(null)" |}.

(** The same backend, except that references cannot be moved. *)
Definition refusing : backend :=
  {| USE_LIBGIT23_API := true; default_directory := "/home/diver/.subsurface";
     alloc_ok := fun _ => true; last_error := "failed"; proxy_string := None;
     url_user := fun _ => None;
     merge_base_of := fun _ one _ => Some one;
     set_target_ok := fun _ _ _ => false; lookup_ok := fun _ _ => true;
     hard_reset_ok := fun _ _ => true; push_ok := fun _ _ => true;
     fetched := fun _ => Some [];
     cloned := fun _ _ => Some no_repository;
     missing_argument := "(null)" |}.

Definition master : string := "refs/heads/master".
Definition origin_master : string := "refs/remotes/origin/master".

(** A cache, bare or with a working tree, whose branch is at commit 1 and
    whose upstream is at commit 2, with the status report [st]. *)
Definition cache_repo (bare : bool) (st : list (string * Z)) : git_repository :=
  {| repo_is_bare := bare; repo_head := Some master;
     repo_refs := <[master := OidTarget 1%N]>
                    (<[origin_master := OidTarget 2%N]> ∅);
     repo_upstream := <[master := origin_master]> ∅;
     repo_remotes := <["origin" := "https://example.com/repo"]> ∅;
     repo_status := st; repo_workdir := if bare then None else Some 1%N;
     repo_config := ∅ |}.

Definition cache_world (bare : bool) (st : list (string * Z)) : world :=
  {| prefs := no_prefs; fs := <["cache" := true]> ∅;
     repos := <["cache" := cache_repo bare st]> ∅;
     reports := []; calls := []; allocs := 0 |}.

Definition local_master : git_reference :=
  {| ref_owner := "cache"; ref_name := master; ref_points_at := OidTarget 1%N |}.

Definition remote_master : git_reference :=
  {| ref_owner := "cache"; ref_name := origin_master;
     ref_points_at := OidTarget 2%N |}.

Definition origin : git_remote :=
  {| remote_owner := "cache"; remote_name := "origin";
     remote_url := "https://example.com/repo" |}.

(** A world with nothing on disk. *)
Definition empty_world : world :=
  {| prefs := no_prefs; fs := ∅; repos := ∅; reports := []; calls := [];
     allocs := 0 |}.

(** A world whose directory [a] holds a repository. *)
Definition local_world : world :=
  {| prefs := no_prefs; fs := <["a" := true]> ∅;
     repos := <["a" := cache_repo false []]> ∅;
     reports := []; calls := []; allocs := 0 |}.

(** A world whose directory [/a/b/c] holds a repository. *)
Definition abc_world : world :=
  {| prefs := no_prefs; fs := <["/a/b/c" := true]> ∅;
     repos := <["/a/b/c" := cache_repo false []]> ∅;
     reports := []; calls := []; allocs := 0 |}.

(** A world whose cache is level with its upstream, both at commit 1. *)
Definition synced_world : world :=
  {| prefs := no_prefs; fs := <["cache" := true]> ∅;
     repos := <["cache" := with_refs (cache_repo false [])
                             (<[origin_master := OidTarget 1%N]>
                                (repo_refs (cache_repo false [])))]> ∅;
     reports := []; calls := []; allocs := 0 |}.

(** A backend that reaches no remote: fetch and push fail, and the merge
    base is the upstream commit. *)
Definition offline : backend :=
  {| USE_LIBGIT23_API := true; default_directory := "/home/diver/.subsurface";
     alloc_ok := fun _ => true; last_error := "failed"; proxy_string := None;
     url_user := fun _ => None;
     merge_base_of := fun _ _ two => Some two;
     set_target_ok := fun _ _ _ => true; lookup_ok := fun _ _ => true;
     hard_reset_ok := fun _ _ => true; push_ok := fun _ _ => false;
     fetched := fun _ => None;
     cloned := fun _ _ => None;
     missing_argument := "(null)" |}.

End Samples.

(** * Properties *)

Ltac splits := repeat match goal with |- _ /\ _ => split end.

(** ** Strings *)

Lemma str_app_length (a b : string) :
  String.length (a +:+ b) = (String.length a + String.length b)%nat.
Proof. induction a as [|c a IH]; simpl; [reflexivity | now rewrite IH]. Qed.

Lemma str_app_assoc (a b c : string) : (a +:+ b) +:+ c = a +:+ (b +:+ c).
Proof. induction a as [|x a IH]; simpl; [reflexivity | now rewrite IH]. Qed.

Lemma str_app_nil_r (a : string) : a +:+ "" = a.
Proof. induction a as [|x a IH]; simpl; [reflexivity | now rewrite IH]. Qed.

Lemma str_app_inv_head (a b c : string) : a +:+ b = a +:+ c -> b = c.
Proof.
  induction a as [|x a IH]; simpl; intros H; [exact H |].
  injection H as H. now apply IH.
Qed.

Lemma char_at_app_r (a b : string) (i : nat) :
  char_at (a +:+ b) (String.length a + i) = char_at b i.
Proof.
  unfold char_at. induction a as [|x a IH]; simpl; [reflexivity | exact IH].
Qed.

Lemma char_at_app_l (a b : string) (i : nat) :
  (i < String.length a)%nat -> char_at (a +:+ b) i = char_at a i.
Proof.
  unfold char_at. revert i.
  induction a as [|x a IH]; simpl; intros i Hi; [lia |].
  destruct i as [|i]; [reflexivity |]. apply IH. lia.
Qed.

Lemma char_at_past (s : string) (i : nat) :
  (String.length s <= i)%nat -> char_at s i = NUL.
Proof.
  unfold char_at. revert i.
  induction s as [|x s IH]; simpl; intros i Hi.
  - now destruct i.
  - destruct i as [|i]; [lia |]. apply IH. lia.
Qed.

Lemma str_take_drop (n : nat) (s : string) : str_take n s +:+ str_drop n s = s.
Proof.
  revert s. induction n as [|n IH]; intros [|c s]; simpl; try reflexivity.
  now rewrite IH.
Qed.

Lemma str_take_app (a b : string) : str_take (String.length a) (a +:+ b) = a.
Proof. induction a as [|x a IH]; simpl; [now destruct b | now rewrite IH]. Qed.

Lemma str_drop_app (a b : string) : str_drop (String.length a) (a +:+ b) = b.
Proof. induction a as [|x a IH]; simpl; [reflexivity | exact IH]. Qed.

Lemma str_take_all (s : string) : str_take (String.length s) s = s.
Proof. rewrite <- (str_app_nil_r s) at 2. apply str_take_app. Qed.

Lemma str_take_length (n : nat) (s : string) :
  (n <= String.length s)%nat -> String.length (str_take n s) = n.
Proof.
  revert s. induction n as [|n IH]; intros [|c s]; simpl; intros H;
    try reflexivity; try lia.
  rewrite IH; [reflexivity | lia].
Qed.

Lemma str_drop_length (n : nat) (s : string) :
  String.length (str_drop n s) = (String.length s - n)%nat.
Proof.
  revert s. induction n as [|n IH]; intros [|c s]; simpl; try reflexivity.
  apply IH.
Qed.

Lemma str_drop_drop (n m : nat) (s : string) :
  str_drop n (str_drop m s) = str_drop (m + n) s.
Proof.
  revert s. induction m as [|m IH]; intros s; simpl; [reflexivity |].
  destruct s as [|c s]; [now destruct n | apply IH].
Qed.

(** A string is its characters: the character at [n], then the rest. *)
Lemma str_drop_char (n : nat) (s : string) :
  (n < String.length s)%nat ->
  str_drop n s = String (char_at s n) (str_drop (S n) s).
Proof.
  revert s. induction n as [|n IH]; intros [|c s]; simpl; intros H; try lia.
  - reflexivity.
  - rewrite IH by lia. reflexivity.
Qed.

Lemma strchr_none_char_at (s : string) (c : ascii) (i : nat) :
  strchr s c = None -> (i < String.length s)%nat -> char_at s i <> c.
Proof.
  revert i. induction s as [|x s IH]; simpl; intros i H Hi; [lia |].
  destruct (Ascii.eqb x c) eqn:Hx; [discriminate |].
  destruct (strchr s c) eqn:Hs; [discriminate |].
  destruct i as [|i].
  - unfold char_at; simpl. now apply Ascii.eqb_neq.
  - apply (IH i); [reflexivity | lia].
Qed.

Lemma strchr_app_none (a b : string) (c : ascii) :
  strchr a c = None ->
  strchr (a +:+ b) c
  = match strchr b c with
    | Some i => Some (String.length a + i)%nat
    | None => None
    end.
Proof.
  induction a as [|x a IH]; simpl; intros H.
  - now destruct (strchr b c).
  - destruct (Ascii.eqb x c); [discriminate |].
    destruct (strchr a c) eqn:Ha; [discriminate |].
    rewrite IH by reflexivity. now destruct (strchr b c).
Qed.

Lemma strchr_app_hit (a b : string) (c : ascii) :
  strchr a c = None ->
  strchr (a +:+ String c b) c = Some (String.length a).
Proof.
  intros H. rewrite strchr_app_none by exact H. simpl.
  rewrite Ascii.eqb_refl. f_equal. lia.
Qed.

Lemma has_prefix_app (lit s : string) : has_prefix lit (lit +:+ s) = true.
Proof.
  unfold has_prefix. induction lit as [|c lit IH]; simpl.
  - now destruct s.
  - destruct (ascii_dec c c) as [_|n]; [exact IH | now destruct n].
Qed.

Lemma has_prefix_split (lit s : string) :
  has_prefix lit s = true -> s = lit +:+ str_drop (String.length lit) s.
Proof.
  unfold has_prefix. revert s.
  induction lit as [|c lit IH]; intros s H; simpl; [reflexivity |].
  destruct s as [|x s]; simpl in H; [discriminate |].
  destruct (ascii_dec c x) as [->|]; [| discriminate].
  simpl. f_equal. now apply IH.
Qed.

(** ** Scheme detection *)

Lemma scan_scheme_lower (letters : string) (c : ascii) (rest : string) :
  all_lower letters = true -> is_lower c = false ->
  scan_scheme (letters +:+ String c rest) = (c, rest).
Proof.
  intros Hl Hc. induction letters as [|x letters IH]; simpl.
  - now rewrite Hc.
  - simpl in Hl. apply andb_true_iff in Hl as [Hx Hl].
    rewrite Hx. now apply IH.
Qed.

Lemma scan_scheme_inv (s : string) (c : ascii) (p : string) :
  scan_scheme s = (c, p) -> c <> NUL ->
  exists letters, all_lower letters = true /\ s = letters +:+ String c p.
Proof.
  revert c p. induction s as [|x s IH]; simpl; intros c p H Hc.
  - injection H as <- _. now destruct Hc.
  - destruct (is_lower x) eqn:Hx.
    + destruct (IH c p H Hc) as (letters & Hl & ->).
      exists (String x letters). simpl. now rewrite Hx, Hl.
    + injection H as <- <-. now exists "".
Qed.

Lemma looks_remote_iff (s : string) :
  looks_remote s = true <-> scheme_prefixed 0 s.
Proof.
  unfold looks_remote, scheme_prefixed. split.
  - destruct (scan_scheme s) as [c p] eqn:Hscan.
    destruct (Ascii.eqb c ":") eqn:Hc; simpl; [| discriminate].
    apply Ascii.eqb_eq in Hc. subst c.
    destruct p as [|c1 p1]; [discriminate |].
    destruct (Ascii.eqb c1 "/") eqn:H1; simpl; [| discriminate].
    apply Ascii.eqb_eq in H1. subst c1.
    destruct p1 as [|c2 p2]; [discriminate |].
    intros H2. apply Ascii.eqb_eq in H2. subst c2.
    destruct (scan_scheme_inv s _ _ Hscan) as (letters & Hl & ->);
      [discriminate |].
    exists letters, p2. splits; [lia | exact Hl | reflexivity].
  - intros (letters & rest & _ & Hl & ->). simpl.
    rewrite (scan_scheme_lower letters ":" _ Hl eq_refl).
    reflexivity.
Qed.

(** ** The bracket scan *)

Lemma slashes_length (k : nat) : String.length (slashes k) = k.
Proof. induction k as [|k IH]; simpl; [reflexivity | now rewrite IH]. Qed.

Lemma char_at_slashes (k i : nat) :
  (i < k)%nat -> char_at (slashes k) i = "/"%char.
Proof.
  revert i. induction k as [|k IH]; intros i Hi; [lia |].
  destruct i as [|i]; [reflexivity |]. apply (IH i). lia.
Qed.

(** Scanning back over a branch text without [[] stops at the bracket in
    front of it. *)
Lemma find_bracket_found (pre text rest : string) (n blen : nat) :
  strchr text "[" = None -> (n <= String.length text)%nat ->
  find_bracket (pre +:+ String "[" (text +:+ rest))
    (String.length pre + 1 + n) blen
  = (String.length pre, (blen + n)%nat).
Proof.
  intros Hno. revert blen.
  induction n as [|n IH]; intros blen Hn.
  - replace (String.length pre + 1 + 0)%nat with (S (String.length pre)) by lia.
    simpl. rewrite <- (Nat.add_0_r (String.length pre)) at 1.
    rewrite char_at_app_r. unfold char_at; simpl.
    f_equal; lia.
  - replace (String.length pre + 1 + S n)%nat
      with (S (String.length pre + S n)) by lia.
    simpl. rewrite char_at_app_r.
    change (char_at (String "[" (text +:+ rest)) (S n))
      with (char_at (text +:+ rest) n).
    rewrite char_at_app_l by lia.
    destruct (Ascii.eqb (char_at text n) "[") eqn:Hc.
    + apply Ascii.eqb_eq in Hc.
      now apply (strchr_none_char_at text "[" n) in Hc; [| | lia].
    + replace (String.length pre + S n)%nat
        with (String.length pre + 1 + n)%nat by lia.
      rewrite IH by lia. f_equal; lia.
Qed.

Lemma skip_slashes_step (s : string) (n offset : nat) :
  skip_slashes s (S n) offset
  = if Ascii.eqb (char_at s n) "/" then skip_slashes s n (S offset)
    else (S n, offset).
Proof. reflexivity. Qed.

(** Stripping stops at the last character of the path. *)
Lemma slashes_snoc (k : nat) (rest : string) :
  slashes (S k) +:+ rest = slashes k +:+ String "/" rest.
Proof. induction k as [|k IH]; simpl in *; [reflexivity | now rewrite IH]. Qed.

Lemma skip_slashes_path (path rest : string) (k offset : nat) :
  char_at path (String.length path - 1) <> "/"%char ->
  skip_slashes (path +:+ slashes k +:+ rest) (String.length path + k) offset
  = (String.length path, (offset + k)%nat).
Proof.
  intros Hlast. revert offset rest.
  induction k as [|k IH]; intros offset rest.
  - rewrite Nat.add_0_r.
    destruct (String.length path) as [|m] eqn:Hm; simpl.
    + f_equal; lia.
    + rewrite char_at_app_l by lia.
      replace (S m - 1)%nat with m in Hlast by lia.
      apply Ascii.eqb_neq in Hlast. rewrite Hlast. f_equal; lia.
  - rewrite slashes_snoc.
    replace (String.length path + S k)%nat
      with (S (String.length path + k)) by lia.
    rewrite skip_slashes_step, char_at_app_r.
    rewrite <- (slashes_length k) at 2.
    rewrite <- (Nat.add_0_r (String.length (slashes k))).
    rewrite char_at_app_r. unfold char_at at 1. simpl.
    rewrite IH. f_equal; lia.
Qed.

(** A locator of the documented shape parses into its parts. *)
Lemma parse_locator_shaped (path text : string) (k : nat) :
  path <> "" ->
  char_at path (String.length path - 1) <> "/"%char ->
  strchr text "[" = None ->
  parse_locator (path +:+ slashes k +:+ "[" +:+ text +:+ "]")
  = Some (path, text).
Proof.
  intros Hne Hlast Hno.
  unfold parse_locator, locator_shape.
  set (s := path +:+ slashes k +:+ "[" +:+ text +:+ "]").
  assert (Hlen : String.length s
                 = S (String.length (path +:+ slashes k) + 1
                      + String.length text)).
  { unfold s. rewrite !str_app_length, slashes_length. simpl. lia. }
  rewrite Hlen.
  assert (Hs : s = (path +:+ slashes k) +:+ String "[" (text +:+ "]")).
  { unfold s. now rewrite str_app_assoc. }
  assert (Hend : char_at s (String.length (path +:+ slashes k) + 1
                            + String.length text) = "]"%char).
  { rewrite Hs.
    replace (String.length (path +:+ slashes k) + 1 + String.length text)%nat
      with (String.length (path +:+ slashes k) + S (String.length text))%nat
      by lia.
    rewrite char_at_app_r.
    change (char_at (String "[" (text +:+ "]")) (S (String.length text)))
      with (char_at (text +:+ "]") (String.length text)).
    rewrite <- (Nat.add_0_r (String.length text)).
    now rewrite char_at_app_r. }
  rewrite Hend. simpl negb. cbv iota.
  rewrite Hs at 1.
  rewrite find_bracket_found by (exact Hno || lia).
  rewrite str_app_length, slashes_length.
  unfold s at 1.
  rewrite skip_slashes_path by exact Hlast.
  destruct (String.length path) as [|m] eqn:Hm.
  { destruct path; [now destruct Hne | discriminate]. }
  rewrite <- Hm. f_equal. f_equal.
  - unfold s. apply str_take_app.
  - replace (String.length path + (1 + k))%nat
      with (String.length (path +:+ slashes k +:+ "["))
      by (rewrite !str_app_length, slashes_length; simpl; lia).
    unfold s.
    replace (path +:+ slashes k +:+ "[" +:+ text +:+ "]")
      with ((path +:+ slashes k +:+ "[") +:+ text +:+ "]")
      by (now rewrite !str_app_assoc).
    rewrite str_drop_app. apply str_take_app.
Qed.

(** Without a path in front of the separators and the bracket, the scan
    gives up. *)
Lemma parse_locator_no_path (text : string) (k : nat) :
  strchr text "[" = None ->
  parse_locator (slashes k +:+ "[" +:+ text +:+ "]") = None.
Proof.
  intros Hno. unfold parse_locator, locator_shape.
  set (s := slashes k +:+ "[" +:+ text +:+ "]").
  assert (Hlen : String.length s
                 = S (String.length (slashes k) + 1 + String.length text)).
  { unfold s. rewrite !str_app_length, slashes_length. simpl. lia. }
  rewrite Hlen.
  assert (Hs : s = slashes k +:+ String "[" (text +:+ "]")) by reflexivity.
  assert (Hend : char_at s (String.length (slashes k) + 1
                            + String.length text) = "]"%char).
  { rewrite Hs.
    replace (String.length (slashes k) + 1 + String.length text)%nat
      with (String.length (slashes k) + S (String.length text))%nat by lia.
    rewrite char_at_app_r.
    change (char_at (String "[" (text +:+ "]")) (S (String.length text)))
      with (char_at (text +:+ "]") (String.length text)).
    rewrite <- (Nat.add_0_r (String.length text)).
    now rewrite char_at_app_r. }
  rewrite Hend. simpl negb. cbv iota.
  rewrite Hs at 1.
  rewrite find_bracket_found by (exact Hno || lia).
  rewrite slashes_length.
  pose proof (skip_slashes_path "" ("[" +:+ text +:+ "]") k 1) as Hskip.
  simpl in Hskip. unfold s.
  change (slashes k +:+ "[" +:+ text +:+ "]")
    with (slashes k +:+ String "[" (text +:+ "]")).
  rewrite Hskip; [reflexivity | discriminate].
Qed.

(** Without any [[] the scan runs off the front of the string. *)
Lemma find_bracket_none (s : string) (flen blen : nat) :
  strchr s "[" = None -> (flen <= String.length s)%nat ->
  fst (find_bracket s flen blen) = O.
Proof.
  intros Hno. revert blen.
  induction flen as [|n IH]; intros blen Hn; [reflexivity |].
  simpl. destruct (Ascii.eqb (char_at s n) "[") eqn:Hc.
  - apply Ascii.eqb_eq in Hc.
    now apply (strchr_none_char_at s "[" n) in Hc; [| | lia].
  - apply IH. lia.
Qed.

Lemma parse_locator_no_bracket (s : string) :
  strchr s "[" = None -> parse_locator s = None.
Proof.
  intros Hno. unfold parse_locator, locator_shape.
  destruct (String.length s) as [|n] eqn:Hlen; [reflexivity |].
  destruct (negb (Ascii.eqb (char_at s n) "]")); [reflexivity |].
  pose proof (find_bracket_none s n 0 Hno ltac:(lia)) as Hf.
  destruct (find_bracket s n 0) as [f b]. simpl in Hf. subst f.
  reflexivity.
Qed.

(** ** What an accepted locator looks like *)

Lemma str_drop_all (s : string) (n : nat) :
  (String.length s <= n)%nat -> str_drop n s = "".
Proof.
  revert n. induction s as [|c s IH]; intros [|n] H; simpl in *;
    try reflexivity; try lia.
  apply IH. lia.
Qed.

Lemma char_at_drop (s : string) (n i : nat) :
  char_at (str_drop n s) i = char_at s (n + i).
Proof.
  revert s. induction n as [|n IH]; intros s; [reflexivity |].
  destruct s as [|c s]; simpl.
  - now rewrite !char_at_past by (simpl; lia).
  - apply IH.
Qed.

Lemma char_at_take (s : string) (n i : nat) :
  (i < n)%nat -> char_at (str_take n s) i = char_at s i.
Proof.
  revert s i. induction n as [|n IH]; intros s i Hi; [lia |].
  destruct s as [|c s]; [reflexivity |].
  destruct i as [|i]; [reflexivity |].
  apply (IH s i). lia.
Qed.

Lemma char_at_none_strchr (s : string) (c : ascii) :
  (forall i, (i < String.length s)%nat -> char_at s i <> c) ->
  strchr s c = None.
Proof.
  induction s as [|x s IH]; intros H; [reflexivity |]. simpl.
  destruct (Ascii.eqb x c) eqn:Hx.
  - apply Ascii.eqb_eq in Hx. exfalso. apply (H O); [simpl; lia | exact Hx].
  - rewrite IH; [reflexivity |].
    intros i Hi. apply (H (S i)). simpl; lia.
Qed.

Lemma find_bracket_inv (s : string) (flen blen f b : nat) :
  find_bracket s flen blen = (f, b) -> f <> O ->
  char_at s f = "["%char /\ (f < flen)%nat /\ (b + f + 1 = blen + flen)%nat
  /\ forall i, (f < i < flen)%nat -> char_at s i <> "["%char.
Proof.
  revert blen. induction flen as [|n IH]; intros blen H Hf; simpl in H.
  - injection H as <- _. now destruct Hf.
  - destruct (Ascii.eqb (char_at s n) "[") eqn:Hc.
    + injection H as <- <-. apply Ascii.eqb_eq in Hc.
      splits; [exact Hc | lia | lia | intros i Hi; lia].
    + destruct (IH _ H Hf) as (H1 & H2 & H3 & H4).
      splits; [exact H1 | lia | lia |].
      intros i Hi. destruct (Nat.eq_dec i n) as [->|Hne].
      * now apply Ascii.eqb_neq.
      * apply H4. lia.
Qed.

Lemma skip_slashes_inv (s : string) (flen offset f o : nat) :
  skip_slashes s flen offset = (f, o) ->
  (f <= flen)%nat /\ (o + f = offset + flen)%nat
  /\ (forall i, (f <= i < flen)%nat -> char_at s i = "/"%char)
  /\ (f <> O -> char_at s (f - 1) <> "/"%char).
Proof.
  revert offset. induction flen as [|n IH]; intros offset H.
  - injection H as <- <-. splits; intros; lia.
  - rewrite skip_slashes_step in H.
    destruct (Ascii.eqb (char_at s n) "/") eqn:Hc.
    + destruct (IH _ H) as (H1 & H2 & H3 & H4).
      splits; [lia | lia | | exact H4].
      intros i Hi. destruct (Nat.eq_dec i n) as [->|Hne].
      * now apply Ascii.eqb_eq.
      * apply H3. lia.
    + injection H as <- <-. splits; try lia.
      intros _. replace (S n - 1)%nat with n by lia.
      now apply Ascii.eqb_neq.
Qed.

Lemma str_drop_slashes (s : string) (d f : nat) :
  (f + d <= String.length s)%nat ->
  (forall i, (f <= i < f + d)%nat -> char_at s i = "/"%char) ->
  str_drop f s = slashes d +:+ str_drop (f + d) s.
Proof.
  revert f. induction d as [|d IH]; intros f Hlen Hall.
  - now rewrite Nat.add_0_r.
  - rewrite (str_drop_char f) by lia.
    rewrite (Hall f) by lia.
    rewrite (IH (S f)) by (try lia; intros i Hi; apply Hall; lia).
    replace (S f + d)%nat with (f + S d)%nat by lia. reflexivity.
Qed.

(** An accepted locator is a non-empty path that does not end in a
    separator, any number of separators, and the branch text in
    brackets. *)
Lemma parse_locator_inv (s loc text : string) :
  parse_locator s = Some (loc, text) ->
  exists k,
    s = loc +:+ slashes k +:+ "[" +:+ text +:+ "]"
    /\ loc <> ""
    /\ char_at loc (String.length loc - 1) <> "/"%char
    /\ strchr text "[" = None.
Proof.
  unfold parse_locator, locator_shape.
  destruct (String.length s) as [|n] eqn:Hlen; [discriminate |].
  destruct (Ascii.eqb (char_at s n) "]") eqn:Hend; cbn [negb];
    [| discriminate].
  apply Ascii.eqb_eq in Hend.
  destruct (find_bracket s n 0) as [f0 b] eqn:Hfind.
  destruct (skip_slashes s f0 1) as [f o] eqn:Hskip.
  destruct f as [|f']; [discriminate |].
  destruct (skip_slashes_inv _ _ _ _ _ Hskip) as (S1 & S2 & S3 & S4).
  assert (Hf0 : f0 <> O) by lia.
  destruct (find_bracket_inv _ _ _ _ _ Hfind Hf0) as (F1 & F2 & F3 & F4).
  replace (S f' + o)%nat with (S f0) by lia.
  remember (str_take (S f') s) as loc' eqn:Hloc.
  remember (str_take b (str_drop (S f0) s)) as text' eqn:Htext.
  intros H. injection H as <- <-. subst loc' text'.
  exists (f0 - S f')%nat. splits.
  - rewrite <- (str_take_drop (S f') s) at 1. f_equal.
    rewrite (str_drop_slashes s (f0 - S f') (S f'))
      by (try lia; intros i Hi; apply S3; lia).
    f_equal.
    replace (S f' + (f0 - S f'))%nat with f0 by lia.
    rewrite (str_drop_char f0) by lia. rewrite F1.
    change ("[" +:+ str_take b (str_drop (S f0) s) +:+ "]")
      with (String "[" (str_take b (str_drop (S f0) s) +:+ "]")).
    f_equal.
    rewrite <- (str_take_drop b (str_drop (S f0) s)) at 1. f_equal.
    rewrite str_drop_drop.
    replace (S f0 + b)%nat with n by lia.
    rewrite (str_drop_char n) by lia. rewrite Hend.
    now rewrite str_drop_all by lia.
  - destruct s; [discriminate | discriminate].
  - rewrite str_take_length by lia.
    rewrite char_at_take by lia. apply S4. discriminate.
  - apply char_at_none_strchr. intros i Hi.
    rewrite str_take_length in Hi by (rewrite str_drop_length; lia).
    rewrite char_at_take by lia. rewrite char_at_drop.
    apply F4. lia.
Qed.

(** ** The account in an https url *)

Lemma strchr_app_bound (a b : string) (c : ascii) :
  exists j, strchr (a +:+ String c b) c = Some j /\ (j <= String.length a)%nat.
Proof.
  induction a as [|x a (j & Hj & Hle)]; simpl.
  - rewrite Ascii.eqb_refl. exists O. split; [reflexivity | lia].
  - destruct (Ascii.eqb x c).
    + exists O. split; [reflexivity | lia].
    + rewrite Hj. exists (S j). split; [reflexivity | lia].
Qed.

Lemma str_drop_8_https (body : string) :
  str_drop 8 ("https://" +:+ body) = body.
Proof. reflexivity. Qed.

Lemma strchr_https (body : string) (c : ascii) :
  strchr "https://" c = None ->
  strchr ("https://" +:+ body) c
  = match strchr body c with
    | Some i => Some (8 + i)%nat
    | None => None
    end.
Proof. intros H. now rewrite strchr_app_none by exact H. Qed.

(** An [@] in front of the first [/] after the prefix delimits the
    account. *)
Lemma split_account_found (account rest : string) :
  strchr account "@" = None -> strchr account "/" = None ->
  strchr rest "/" <> None ->
  split_account ("https://" +:+ account +:+ "@" +:+ rest)
  = Some (account, "https://" +:+ rest).
Proof.
  intros Hat Hslash Hrest. unfold split_account.
  rewrite has_prefix_app.
  rewrite strchr_https by reflexivity.
  change (account +:+ "@" +:+ rest) with (account +:+ String "@" rest).
  rewrite strchr_app_hit by exact Hat.
  rewrite str_drop_8_https.
  rewrite strchr_app_none by exact Hslash.
  simpl strchr.
  destruct (strchr rest "/") as [i|] eqn:Hi; [| now destruct Hrest].
  replace (8 + String.length account <? 8 + (String.length account + S i))%nat
    with true by (symmetry; apply Nat.ltb_lt; lia).
  replace (8 + String.length account - 8)%nat with (String.length account)
    by lia.
  rewrite str_take_app. do 2 f_equal.
  change (str_take 8 ("https://" +:+ account +:+ String "@" rest))
    with "https://".
  f_equal.
  change (S (8 + String.length account))
    with (8 + S (String.length account))%nat.
  rewrite <- str_drop_drop. rewrite str_drop_8_https.
  replace (S (String.length account))
    with (String.length (account +:+ "@"))
    by (rewrite str_app_length; simpl; lia).
  replace (account +:+ String "@" rest) with ((account +:+ "@") +:+ rest)
    by (now rewrite str_app_assoc).
  apply str_drop_app.
Qed.

(** An [@] at or after the first [/] is part of the path. *)
Lemma split_account_in_path (host tail : string) :
  strchr host "@" = None ->
  split_account ("https://" +:+ host +:+ "/" +:+ tail) = None.
Proof.
  intros Hat. unfold split_account.
  rewrite has_prefix_app.
  rewrite strchr_https by reflexivity.
  rewrite str_drop_8_https.
  change (host +:+ "/" +:+ tail) with (host +:+ String "/" tail).
  rewrite (strchr_app_none host _ "@") by exact Hat.
  simpl (strchr (String "/" tail) "@").
  destruct (strchr tail "@") as [i|]; [| reflexivity].
  destruct (strchr_app_bound host tail "/") as (j & -> & Hj).
  replace (8 + (String.length host + S i) <? 8 + j)%nat with false
    by (symmetry; apply Nat.ltb_ge; lia).
  reflexivity.
Qed.

(** Without a [/] after the prefix nothing is taken out. *)
Lemma split_account_no_slash (body : string) :
  strchr body "/" = None -> split_account ("https://" +:+ body) = None.
Proof.
  intros H. unfold split_account.
  rewrite has_prefix_app, str_drop_8_https, H.
  now destruct (strchr ("https://" +:+ body) "@").
Qed.

Lemma split_account_other_scheme (remote : string) :
  has_prefix "https://" remote = false -> split_account remote = None.
Proof. intros H. unfold split_account. now rewrite H. Qed.

(** ** The cache address *)

(** The digest agrees with the test vectors of the standard. *)
Example sha1_abc :
  hex_string (Sha1.digest (bytes_of_string "abc"))
  = "a9993e364706816aba3e25717850c26c9cd0d89d".
Proof. vm_compute. reflexivity. Qed.

Example sha1_empty :
  hex_string (Sha1.digest [])
  = "da39a3ee5e6b4b0d3255bfef95601890afd80709".
Proof. vm_compute. reflexivity. Qed.

Example sha1_two_blocks :
  hex_string (Sha1.digest (bytes_of_string
    "abcdbcdecdefdefgefghfghighijhijkijkljklmklmnlmnomnopnopq"))
  = "84983e441c3bd26ebaae4aa1f95129e5e54670f1".
Proof. vm_compute. reflexivity. Qed.

Lemma be_bytes_length (n : nat) (x : Z) : length (Sha1.be_bytes n x) = n.
Proof. induction n as [|n IH]; simpl; [reflexivity | now rewrite IH]. Qed.

Lemma digest_length (msg : list Z) : length (Sha1.digest msg) = 20%nat.
Proof.
  unfold Sha1.digest.
  destruct (Sha1.blocks _ _ _) as [[[[h0 h1] h2] h3] h4].
  now rewrite !length_app, !be_bytes_length.
Qed.

Lemma hex_digit_lower (n : Z) : is_lower_hex (hex_digit n) = true.
Proof.
  destruct n as [|p|p]; try reflexivity.
  do 5 (try (destruct p as [p|p|]; try reflexivity)).
Qed.

Lemma hex_string_length (bs : list Z) :
  String.length (hex_string bs) = (2 * length bs)%nat.
Proof. induction bs as [|b bs IH]; simpl; [reflexivity | rewrite IH; lia]. Qed.

Lemma hex_string_lower (bs : list Z) : all_lower_hex (hex_string bs) = true.
Proof.
  induction bs as [|b bs IH]; simpl; [reflexivity |].
  now rewrite !hex_digit_lower, IH.
Qed.

Lemma byte_of_ascii_inj (a b : ascii) :
  Z.of_N (N_of_ascii a) = Z.of_N (N_of_ascii b) -> a = b.
Proof.
  intros H. apply N2Z.inj in H.
  rewrite <- (ascii_N_embedding a), <- (ascii_N_embedding b). now rewrite H.
Qed.

Lemma bytes_of_string_inj (s t : string) :
  bytes_of_string s = bytes_of_string t -> s = t.
Proof.
  unfold bytes_of_string. revert t.
  induction s as [|c s IH]; intros [|d t] H; simpl in H;
    try discriminate; [reflexivity |].
  injection H as Hc Hs. apply byte_of_ascii_inj in Hc. subst d.
  f_equal. now apply IH.
Qed.

Lemma cstring_cons (c : ascii) (s : string) :
  cstring (String c s) -> c <> NUL /\ cstring s.
Proof.
  unfold cstring. simpl. destruct (Ascii.eqb c NUL) eqn:Hc; [discriminate |].
  intros H. split; [now apply Ascii.eqb_neq |].
  now destruct (strchr s NUL).
Qed.

(** The zero byte separates the two parts: no other pair of C strings
    gives the same bytes. *)
Lemma address_preimage_inj (remote branch remote' branch' : string) :
  cstring remote -> cstring remote' ->
  address_preimage remote branch = address_preimage remote' branch' ->
  remote = remote' /\ branch = branch'.
Proof.
  unfold address_preimage, bytes_of_string. revert remote'.
  induction remote as [|c r IH]; intros [|d r'] Hr Hr' H; simpl in H.
  - injection H as H. split; [reflexivity | now apply bytes_of_string_inj].
  - injection H as Hd _. apply cstring_cons in Hr' as [Hd' _].
    exfalso. apply Hd'. apply byte_of_ascii_inj. now rewrite <- Hd.
  - injection H as Hc _. apply cstring_cons in Hr as [Hc' _].
    exfalso. apply Hc'. apply byte_of_ascii_inj. now rewrite Hc.
  - injection H as Hc Hrest. apply byte_of_ascii_inj in Hc. subst d.
    apply cstring_cons in Hr as [_ Hr]. apply cstring_cons in Hr' as [_ Hr'].
    destruct (IH r' Hr Hr' Hrest) as [-> ->]. now split.
Qed.

Lemma local_dir_name_eq (E : backend) (remote branch : string) :
  local_dir_name E remote branch
  = default_directory E +:+ "/"
      +:+ hex_string (firstn 8 (Sha1.digest (address_preimage remote branch))).
Proof.
  unfold local_dir_name, SHA1_Final, SHA1_Update, SHA1_Init,
    system_default_directory, address_preimage.
  now rewrite app_nil_l, <- app_assoc.
Qed.

(** ** Running the monad *)

Lemma bind_run {A B : Type} (m : M A) (k : A -> M B) (w : world) :
  bind m k w = k (fst (m w)) (snd (m w)).
Proof. unfold bind. now destruct (m w). Qed.

Lemma ret_run {A : Type} (a : A) (w : world) : ret a w = (a, w).
Proof. reflexivity. Qed.

Lemma gets_run {A : Type} (f : world -> A) (w : world) : gets f w = (f w, w).
Proof. reflexivity. Qed.

Lemma modify_run (f : world -> world) (w : world) : modify f w = (tt, f w).
Proof. reflexivity. Qed.

Lemma trace_run (c : backend_call) (w : world) :
  trace c w = (tt, add_call c w).
Proof. reflexivity. Qed.

Lemma report_error_run (msg : string) (w : world) :
  report_error msg w = (-1, add_report msg w).
Proof. reflexivity. Qed.

Lemma update_repo_run (h : string) (f : git_repository -> git_repository)
    (w : world) :
  update_repo h f w = (tt, set_repos (alter f h (repos w)) w).
Proof. reflexivity. Qed.

Lemma if_run {A : Type} (b : bool) (m1 m2 : M A) (w : world) :
  (if b then m1 else m2) w = if b then m1 w else m2 w.
Proof. now destruct b. Qed.

Lemma git_repository_is_bare_run (repo : string) (w : world) :
  git_repository_is_bare repo w = (repo_is_bare (repo_at repo w), w).
Proof. reflexivity. Qed.

Lemma git_merge_base_run (E : backend) (repo : string) (one two : git_oid)
    (w : world) :
  git_merge_base E repo one two w
  = (merge_base_of E repo one two, add_call (call_merge_base repo one two) w).
Proof. reflexivity. Qed.

Lemma git_reference_set_target_run (E : backend) (r : git_reference)
    (id : git_oid) (w : world) :
  git_reference_set_target E r id w
  = let w1 := add_call
                (call_reference_set_target (ref_owner r) (ref_name r) id) w in
    if set_target_ok E (ref_owner r) (ref_name r) id then
      (0, set_repos
            (alter (fun g => with_refs g
                               (<[ref_name r := OidTarget id]> (repo_refs g)))
               (ref_owner r) (repos w1)) w1)
    else (-1, w1).
Proof.
  unfold git_reference_set_target. rewrite bind_run, trace_run.
  cbn [fst snd]. now destruct (set_target_ok E (ref_owner r) (ref_name r) id).
Qed.

Lemma git_object_lookup_run (E : backend) (repo : string) (id : git_oid)
    (w : world) :
  git_object_lookup E repo id w
  = (if lookup_ok E repo id then 0 else -1,
     add_call (call_object_lookup repo id) w).
Proof. reflexivity. Qed.

Lemma git_reset_run (E : backend) (repo : string) (id : git_oid) (w : world) :
  git_reset E repo id w
  = let w1 := add_call (call_reset repo id) w in
    if hard_reset_ok E repo id then
      (0, set_repos (alter (hard_reset id) repo (repos w1)) w1)
    else (-1, w1).
Proof.
  unfold git_reset. rewrite bind_run, trace_run. cbn [fst snd].
  now destruct (hard_reset_ok E repo id).
Qed.

Lemma git_remote_push_run (E : backend) (origin : git_remote)
    (refspec : string) (cb : option (cred_cb)) (w : world) :
  git_remote_push E origin refspec cb w
  = let asked := acquire_cred E cb (remote_url origin) w in
    (if push_ok E (remote_owner origin) refspec then 0 else -1,
     add_call (call_remote_push (remote_owner origin) refspec (fst asked))
       (snd asked)).
Proof.
  unfold git_remote_push. rewrite !bind_run, trace_run, ret_run. reflexivity.
Qed.

Lemma repo_at_add_call (h : string) (c : backend_call) (w : world) :
  repo_at h (add_call c w) = repo_at h w.
Proof. reflexivity. Qed.

Lemma repo_at_add_report (h msg : string) (w : world) :
  repo_at h (add_report msg w) = repo_at h w.
Proof. reflexivity. Qed.

(** ** The cleanliness check *)

Lemma clean_mask_all_bits : clean_mask = 2 ^ 32 - 1.
Proof. reflexivity. Qed.

Lemma land_clean_mask (status : Z) :
  0 <= status < 2 ^ 32 -> Z.land status clean_mask = status.
Proof.
  intros H. rewrite clean_mask_all_bits.
  change (2 ^ 32 - 1) with (Z.ones 32).
  rewrite Z.land_ones by lia. apply Z.mod_small. exact H.
Qed.

(** The mask keeps every flag, so the callback answers 0 for a status
    without flags and 1, after a warning, for any other. *)
Lemma check_clean_run (path : string) (status : Z) (w : world) :
  0 <= status < 2 ^ 32 ->
  check_clean path status w
  = if status =? 0 then (0, w)
    else (1, add_report ("WARNING: Git cache directory modified (path "
                           +:+ path +:+ ")") w).
Proof.
  intros H. unfold check_clean. rewrite land_clean_mask by exact H.
  now destruct (status =? 0).
Qed.

Lemma check_clean_answer (path : string) (status : Z) (w : world) :
  fst (check_clean path status w) = 0
  \/ fst (check_clean path status w) = 1.
Proof.
  unfold check_clean. destruct (Z.land status clean_mask =? 0);
    [left | right]; reflexivity.
Qed.

Lemma check_clean_zero (path : string) (status : Z) (w : world) :
  fst (check_clean path status w) = 0 -> check_clean path status w = (0, w).
Proof.
  unfold check_clean. destruct (Z.land status clean_mask =? 0);
    [reflexivity | discriminate].
Qed.

(** Only reports are added by the callback. *)
Lemma check_clean_frame (path : string) (status : Z) (w : world) :
  let w' := snd (check_clean path status w) in
  prefs w' = prefs w /\ fs w' = fs w /\ repos w' = repos w
  /\ calls w' = calls w /\ allocs w' = allocs w.
Proof.
  unfold check_clean. destruct (Z.land status clean_mask =? 0);
    simpl; auto.
Qed.

Lemma status_entries_frame (entries : list (string * Z)) (w : world) :
  let w' := snd (status_entries check_clean entries w) in
  prefs w' = prefs w /\ fs w' = fs w /\ repos w' = repos w
  /\ calls w' = calls w /\ allocs w' = allocs w.
Proof.
  revert w. induction entries as [|[path flags] rest IH]; intros w; simpl.
  - auto.
  - rewrite bind_run.
    destruct (check_clean_frame path flags w) as (H1 & H2 & H3 & H4 & H5).
    destruct (fst (check_clean path flags w) =? 0).
    + destruct (IH (snd (check_clean path flags w)))
        as (G1 & G2 & G3 & G4 & G5).
      simpl in *. splits; congruence.
    + simpl. auto.
Qed.

Lemma status_entries_clean (entries : list (string * Z)) (w : world) :
  fst (status_entries check_clean entries w) = 0 ->
  status_entries check_clean entries w = (0, w).
Proof.
  revert w. induction entries as [|[path flags] rest IH]; intros w; simpl.
  - reflexivity.
  - rewrite bind_run.
    pose proof (check_clean_answer path flags w) as Ha.
    pose proof (check_clean_zero path flags w) as Hz.
    destruct (check_clean path flags w) as [r w1]; simpl in *.
    destruct Ha as [-> | ->]; simpl.
    + specialize (Hz eq_refl). injection Hz as ->. apply IH.
    + discriminate.
Qed.

Lemma git_status_foreach_run (repo : string) (w : world) :
  git_status_foreach repo check_clean w
  = status_entries check_clean (repo_status (repo_at repo w))
      (add_call (call_status_foreach repo) w).
Proof. reflexivity. Qed.

Lemma git_status_foreach_clean (repo : string) (w : world) :
  tree_clean repo w ->
  git_status_foreach repo check_clean w
  = (0, add_call (call_status_foreach repo) w).
Proof.
  unfold tree_clean. rewrite git_status_foreach_run. apply status_entries_clean.
Qed.

Lemma git_status_foreach_frame (repo : string) (w : world) :
  let w' := snd (git_status_foreach repo check_clean w) in
  prefs w' = prefs w /\ fs w' = fs w /\ repos w' = repos w
  /\ calls w' = calls w ++ [call_status_foreach repo]
  /\ allocs w' = allocs w.
Proof.
  rewrite git_status_foreach_run.
  apply (status_entries_frame _ (add_call (call_status_foreach repo) w)).
Qed.

(** An entry the spec calls dirty stops the walk. *)
Lemma flagged_entry_stops (entries : list (string * Z)) (w : world) :
  Forall (fun e => 0 <= snd e < 2 ^ 32) entries ->
  existsb (fun e => flagged_outside_current_ignored (snd e)) entries = true ->
  fst (status_entries check_clean entries w) <> 0.
Proof.
  intros Hrange. revert w.
  induction Hrange as [|[path flags] rest Hr _ IH]; intros w H; simpl in *.
  - discriminate.
  - rewrite bind_run, check_clean_run by exact Hr.
    destruct (flags =? 0) eqn:Hz; simpl.
    + apply Z.eqb_eq in Hz. subst flags. simpl in H. now apply IH.
    + discriminate.
Qed.

Lemma flagged_tree_dirty (repo : string) (w : world) :
  Forall (fun e => 0 <= snd e < 2 ^ 32) (repo_status (repo_at repo w)) ->
  existsb (fun e => flagged_outside_current_ignored (snd e))
    (repo_status (repo_at repo w)) = true ->
  tree_dirty repo w.
Proof.
  intros Hr H. unfold tree_dirty. rewrite git_status_foreach_run.
  now apply flagged_entry_stops.
Qed.

Lemma reference_cmp_oids (local remote : git_reference)
    (local_id remote_id : git_oid) :
  git_reference_target local = Some local_id ->
  git_reference_target remote = Some remote_id ->
  local_id <> remote_id ->
  (git_reference_cmp local remote =? 0) = false.
Proof.
  unfold git_reference_target, git_reference_cmp.
  destruct (ref_points_at local), (ref_points_at remote);
    try discriminate.
  intros [= ->] [= ->] Hne.
  apply N.eqb_neq in Hne. now rewrite Hne.
Qed.

(** ** The synchronisation decision *)

Lemma alter_lookup_refs (rs : gmap string git_repository) (h name : string)
    (t : ref_target) :
  is_Some (rs !! h) ->
  repo_refs
    (default no_repository
       (alter (fun g => with_refs g (<[name := t]> (repo_refs g))) h rs !! h))
    !! name = Some t.
Proof.
  intros [g Hg]. rewrite lookup_alter_eq, Hg. simpl.
  apply lookup_insert_eq.
Qed.

Lemma hard_reset_lookup (rs : gmap string git_repository) (h name : string)
    (id : git_oid) :
  is_Some (rs !! h) ->
  repo_head (default no_repository (rs !! h)) = Some name ->
  repo_refs (default no_repository (alter (hard_reset id) h rs !! h)) !! name
  = Some (OidTarget id).
Proof.
  intros [g Hg]. rewrite lookup_alter_eq, Hg. simpl. intros ->.
  apply lookup_insert_eq.
Qed.

Lemma checked_out_head (local : git_reference) (w : world) :
  checked_out local w = true ->
  repo_head (repo_at (ref_owner local) w) = Some (ref_name local).
Proof.
  unfold checked_out.
  destruct (repo_head (repo_at (ref_owner local) w)) as [h|]; [| discriminate].
  intros H. apply String.eqb_eq in H. now subst h.
Qed.

Lemma git_branch_is_head_run (local : git_reference) (w : world) :
  git_branch_is_head local w = (if checked_out local w then 1 else 0, w).
Proof.
  unfold git_branch_is_head, gets, checked_out.
  now destruct (repo_head (repo_at (ref_owner local) w)).
Qed.

(** What [reset_to_remote] does, by the state of the branch. *)
Lemma reset_to_remote_outcome (E : backend) (repo : string)
    (local : git_reference) (id : git_oid) (w : world) :
  ref_owner local = repo ->
  is_Some (repos w !! repo) ->
  if repo_is_bare (repo_at repo w) || negb (checked_out local w)
  then moved_reference E local id w (reset_to_remote E repo local id w)
  else reset_worktree E repo local id w (reset_to_remote E repo local id w).
Proof.
  intros <- Hrepo. unfold reset_to_remote.
  rewrite bind_run, git_repository_is_bare_run. cbn [fst snd].
  rewrite bind_run, git_branch_is_head_run. cbn [fst snd].
  replace (negb ((if checked_out local w then 1 else 0) =? 1))
    with (negb (checked_out local w)) by (now destruct (checked_out local w)).
  destruct (repo_is_bare (repo_at (ref_owner local) w) || negb (checked_out local w))
    eqn:Hmove.
  - unfold moved_reference.
    rewrite bind_run, git_reference_set_target_run. cbn zeta.
    destruct (set_target_ok E (ref_owner local) (ref_name local) id);
      cbn [fst snd negb Z.eqb]; rewrite ?bind_run, ?report_error_run, ?ret_run;
      cbn [fst snd].
    + splits; try reflexivity.
      unfold local_ref_target, repo_at. cbn.
      now apply alter_lookup_refs.
    + splits; reflexivity.
  - apply orb_false_iff in Hmove as [_ Hhead].
    apply negb_false_iff in Hhead.
    unfold reset_worktree.
    rewrite bind_run, git_object_lookup_run. cbn [fst snd].
    destruct (lookup_ok E (ref_owner local) id); cbn [fst snd negb Z.eqb].
    + rewrite bind_run, git_reset_run. cbn zeta.
      destruct (hard_reset_ok E (ref_owner local) id);
        cbn [fst snd negb Z.eqb];
        rewrite ?bind_run, ?report_error_run, ?ret_run; cbn [fst snd].
      * splits; try reflexivity; try (cbn; now rewrite <- app_assoc).
        unfold local_ref_target, repo_at. cbn.
        apply hard_reset_lookup; [exact Hrepo |].
        now apply checked_out_head in Hhead.
      * splits; try reflexivity; try (cbn; now rewrite <- app_assoc).
    + rewrite report_error_run. splits; reflexivity.
Qed.

Lemma update_remote_outcome (E : backend) (repo : string) (origin : git_remote)
    (local remote : git_reference) (rt : remote_type) (w : world) :
  let run := update_remote E repo origin local remote rt w in
  let asked := acquire_cred E (credentials_for E rt) (remote_url origin) w in
  calls (snd run)
  = calls (snd asked)
      ++ [call_remote_push (remote_owner origin) (ref_name local) (fst asked)]
  /\ fst run = (if push_ok E (remote_owner origin) (ref_name local)
                then 0 else -1)
  /\ repos (snd run) = repos (snd asked)
  /\ reports (snd run)
     = reports (snd asked)
         ++ [if push_ok E (remote_owner origin) (ref_name local)
             then "Local cache more recent than remote"
             else "Unable to update remote with current local cache state ("
                    +:+ last_error E +:+ ")"].
Proof.
  unfold update_remote, git_reference_name.
  rewrite bind_run, git_remote_push_run. cbn zeta. cbn [fst snd].
  destruct (push_ok E (remote_owner origin) (ref_name local));
    cbn [fst snd negb Z.eqb]; rewrite ?bind_run, ?report_error_run, ?ret_run;
    cbn [fst snd]; splits; reflexivity.
Qed.

(** Asking for credentials changes nothing on disk and reports nothing. *)
Lemma acquire_cred_frame (E : backend) (rt : remote_type) (url : string)
    (w : world) :
  let w' := snd (acquire_cred E (credentials_for E rt) url w) in
  prefs w' = prefs w /\ fs w' = fs w /\ repos w' = repos w
  /\ reports w' = reports w /\ calls w' = calls w.
Proof.
  unfold credentials_for.
  destruct (USE_LIBGIT23_API E); [destruct rt |]; cbn; auto.
Qed.

(** C1 (amended).  On a tree the status walk finds clean, with the local
    and remote commits different and a merge base [base], [try_to_update]
    decides as follows.  FastForwardLocal when [base] is the local commit:
    it runs [reset_to_remote], which asks the backend to move the
    reference when the repository is bare or the branch is not checked
    out, and otherwise looks the commit up and resets the working tree
    hard to it; the local reference ends at the remote commit whenever the
    backend carries the request out, and when the backend refuses an error
    is reported and the repositories stay as they were.  PushLocal when
    [base] is the remote commit: it runs [update_remote].  In the diverged
    cases it only reports: DivergedBareRepo on a bare repository,
    DivergedNotHead when the branch is not checked out, DivergedNeedsMerge
    otherwise; preferences, file system and repositories are untouched. *)
Theorem try_to_update_clean_decision (E : backend) (repo : string)
    (origin : git_remote) (local remote : git_reference) (rt : remote_type)
    (w : world) (local_id remote_id base : git_oid) :
  ref_owner local = repo ->
  is_Some (repos w !! repo) ->
  git_reference_target local = Some local_id ->
  git_reference_target remote = Some remote_id ->
  local_id <> remote_id ->
  tree_clean repo w ->
  merge_base_of E repo local_id remote_id = Some base ->
  let w1 := add_call (call_merge_base repo local_id remote_id)
              (add_call (call_status_foreach repo) w) in
  let run := try_to_update E repo origin local remote rt w in
  let bare := repo_is_bare (repo_at repo w) in
  (base = local_id ->
     run = reset_to_remote E repo local remote_id w1
     /\ if bare || negb (checked_out local w)
        then moved_reference E local remote_id w1 run
        else reset_worktree E repo local remote_id w1 run)
  /\ (base = remote_id ->
        run = update_remote E repo origin local remote rt w1
        /\ repos (snd run) = repos w)
  /\ (base <> local_id -> base <> remote_id ->
        run = (-1, add_report (diverged_report bare (checked_out local w)) w1)
        /\ prefs (snd run) = prefs w /\ fs (snd run) = fs w
        /\ repos (snd run) = repos w).
Proof.
  intros Howner Hrepo Hl Hr Hne Hclean Hbase w1 run bare.
  assert (Hrun : run
    = if git_oid_equal base local_id then
        reset_to_remote E repo local remote_id w1
      else if git_oid_equal base remote_id then
        update_remote E repo origin local remote rt w1
      else (-1, add_report (diverged_report bare (checked_out local w)) w1)).
  { unfold run, try_to_update.
    rewrite (reference_cmp_oids _ _ _ _ Hl Hr Hne).
    rewrite bind_run, (git_status_foreach_clean _ _ Hclean). cbn [fst snd].
    cbn [negb Z.eqb]. rewrite Hl, Hr.
    rewrite bind_run, git_merge_base_run, Hbase. cbn [fst snd]. fold w1.
    destruct (git_oid_equal base local_id); [reflexivity |].
    destruct (git_oid_equal base remote_id); [reflexivity |].
    rewrite bind_run, git_repository_is_bare_run. cbn [fst snd].
    unfold diverged_report, bare.
    change (repo_at repo w1) with (repo_at repo w).
    destruct (repo_is_bare (repo_at repo w)); [reflexivity |].
    rewrite bind_run, git_branch_is_head_run. cbn [fst snd].
    change (checked_out local w1) with (checked_out local w).
    now destruct (checked_out local w). }
  splits.
  - intros ->. unfold git_oid_equal in Hrun. rewrite N.eqb_refl in Hrun.
    split; [exact Hrun |]. rewrite Hrun.
    apply (reset_to_remote_outcome E repo local remote_id w1 Howner Hrepo).
  - intros ->. unfold git_oid_equal in Hrun.
    apply not_eq_sym in Hne. apply N.eqb_neq in Hne.
    rewrite Hne, N.eqb_refl in Hrun.
    split; [exact Hrun |]. rewrite Hrun.
    destruct (update_remote_outcome E repo origin local remote rt w1)
      as (_ & _ & Hrepos & _).
    rewrite Hrepos.
    now destruct (acquire_cred_frame E rt (remote_url origin) w1)
      as (_ & _ & -> & _).
  - intros H1 H2. unfold git_oid_equal in Hrun.
    apply N.eqb_neq in H1, H2. rewrite H1, H2 in Hrun.
    rewrite Hrun. splits; reflexivity.
Qed.

(** At a bare cache one commit behind its upstream, a willing backend
    moves the branch to the upstream commit. *)
Lemma try_to_update_clean_decision_witness :
  local_ref_target Samples.local_master
    (snd (try_to_update Samples.willing "cache" Samples.origin
            Samples.local_master Samples.remote_master OTHER
            (Samples.cache_world true [])))
  = Some (OidTarget 2%N).
Proof.
  pose proof (try_to_update_clean_decision Samples.willing "cache"
                Samples.origin Samples.local_master Samples.remote_master
                OTHER (Samples.cache_world true []) 1%N 2%N 1%N
                eq_refl (ex_intro _ _ eq_refl) eq_refl eq_refl
                ltac:(discriminate) eq_refl eq_refl) as H.
  destruct H as [H _]. destruct (H eq_refl) as [_ Hmoved].
  exact (proj1 (proj2 (proj2 Hmoved))).
Defined.

(** The claim as stated fails: when the backend refuses to move the
    reference, the decision is still the fast-forward, yet the local
    reference stays at the local commit. *)
Lemma fast_forward_refused :
  let w := Samples.cache_world true [] in
  let run := try_to_update Samples.refusing "cache" Samples.origin
               Samples.local_master Samples.remote_master OTHER w in
  tree_clean "cache" w
  /\ git_reference_target Samples.local_master = Some 1%N
  /\ git_reference_target Samples.remote_master = Some 2%N
  /\ merge_base_of Samples.refusing "cache" 1%N 2%N = Some 1%N
  /\ run = reset_to_remote Samples.refusing "cache" Samples.local_master 2%N
             (add_call (call_merge_base "cache" 1%N 2%N)
                (add_call (call_status_foreach "cache") w))
  /\ local_ref_target Samples.local_master (snd run) = Some (OidTarget 1%N)
  /\ local_ref_target Samples.local_master (snd run) <> Some (OidTarget 2%N).
Proof.
  cbv zeta. splits; try reflexivity.
  intros H. vm_compute in H. discriminate H.
Qed.

(** C2.  With the local and remote commits different and a status walk
    that answers non-zero, [try_to_update] reports the dirty tree and
    stops: the only backend operation is the status walk itself (no merge
    base is computed, nothing is moved, reset or pushed), whatever the
    backend would have answered. *)
Theorem try_to_update_dirty_aborts (E : backend) (repo : string)
    (origin : git_remote) (local remote : git_reference) (rt : remote_type)
    (w : world) (local_id remote_id : git_oid) :
  git_reference_target local = Some local_id ->
  git_reference_target remote = Some remote_id ->
  local_id <> remote_id ->
  tree_dirty repo w ->
  let walked := snd (git_status_foreach repo check_clean w) in
  let run := try_to_update E repo origin local remote rt w in
  run = (-1, add_report "local cached copy is dirty, skipping update" walked)
  /\ calls (snd run) = calls w ++ [call_status_foreach repo]
  /\ prefs (snd run) = prefs w /\ fs (snd run) = fs w
  /\ repos (snd run) = repos w.
Proof.
  intros Hl Hr Hne Hdirty walked run.
  assert (Hrun : run
    = (-1, add_report "local cached copy is dirty, skipping update" walked)).
  { unfold run, try_to_update.
    rewrite (reference_cmp_oids _ _ _ _ Hl Hr Hne).
    rewrite bind_run. fold walked. unfold tree_dirty in Hdirty.
    apply Z.eqb_neq in Hdirty. rewrite Hdirty. reflexivity. }
  rewrite Hrun. cbn [fst snd].
  destruct (git_status_foreach_frame repo w) as (H1 & H2 & H3 & H4 & _).
  fold walked in H1, H2, H3, H4. splits; [reflexivity | | | |]; assumption.
Qed.

(** A modified file in the working tree, dirty by the spec's predicate,
    aborts the update of a cache that is one commit behind. *)
Lemma try_to_update_dirty_aborts_witness :
  let w := Samples.cache_world false [("dive.xml", GIT_STATUS_WT_MODIFIED)] in
  calls (snd (try_to_update Samples.willing "cache" Samples.origin
                Samples.local_master Samples.remote_master OTHER w))
  = calls w ++ [call_status_foreach "cache"].
Proof.
  cbv zeta.
  assert (Hdirty : tree_dirty "cache"
            (Samples.cache_world false [("dive.xml", GIT_STATUS_WT_MODIFIED)])).
  { apply flagged_tree_dirty; [| reflexivity].
    repeat constructor; discriminate. }
  exact (proj1 (proj2
    (try_to_update_dirty_aborts Samples.willing "cache" Samples.origin
       Samples.local_master Samples.remote_master OTHER
       (Samples.cache_world false [("dive.xml", GIT_STATUS_WT_MODIFIED)])
       1%N 2%N eq_refl eq_refl ltac:(discriminate) Hdirty))).
Defined.

(** C3 (the code departs from the claim).  The callback masks with
    [~GIT_STATUS_CURRENT | GIT_STATUS_IGNORED], which is every bit, so it
    answers 0 exactly for a status without any flag: an entry whose only
    flag is "ignored" is outside nothing the spec excludes, yet the
    callback warns and answers 1, and the tree counts as dirty. *)
Theorem check_clean_ignored_entry :
  (forall path status w,
      0 <= status < 2 ^ 32 ->
      (fst (check_clean path status w) = 0 <-> status = 0))
  /\ flagged_outside_current_ignored GIT_STATUS_IGNORED = false
  /\ (forall path w,
         check_clean path GIT_STATUS_IGNORED w
         = (1, add_report ("WARNING: Git cache directory modified (path "
                             +:+ path +:+ ")") w))
  /\ tree_dirty "cache"
       (Samples.cache_world false [("build.log", GIT_STATUS_IGNORED)]).
Proof.
  splits.
  - intros path status w H. rewrite check_clean_run by exact H.
    destruct (status =? 0) eqn:Hz; cbn [fst].
    + apply Z.eqb_eq in Hz. tauto.
    + apply Z.eqb_neq in Hz. split; [discriminate | tauto].
  - reflexivity.
  - intros path w. reflexivity.
  - discriminate.
Qed.

(** ** Invariants of a run *)

Lemma ensures_ret {A : Type} (I : world -> Prop) (P : A -> Prop) (a : A) :
  P a -> ensures I P (ret a).
Proof. intros H w Hw. now split. Qed.

Lemma ensures_bind {A B : Type} (I : world -> Prop) (P : B -> Prop)
    (m : M A) (k : A -> M B) :
  keeps I m -> (forall a, ensures I P (k a)) -> ensures I P (bind m k).
Proof.
  intros Hm Hk w Hw. rewrite bind_run.
  destruct (Hm w Hw) as [Hw' _]. exact (Hk _ _ Hw').
Qed.

Lemma ensures_keeps {A : Type} (I : world -> Prop) (P : A -> Prop) (m : M A) :
  ensures I P m -> keeps I m.
Proof. intros H w Hw. split; [apply (H w Hw) | exact Logic.I]. Qed.

Lemma keeps_ret {A : Type} (I : world -> Prop) (a : A) : keeps I (ret a).
Proof. now apply ensures_ret. Qed.

Lemma keeps_bind {A B : Type} (I : world -> Prop) (m : M A) (k : A -> M B) :
  keeps I m -> (forall a, keeps I (k a)) -> keeps I (bind m k).
Proof. apply ensures_bind. Qed.

Lemma keeps_gets {A : Type} (I : world -> Prop) (f : world -> A) :
  keeps I (gets f).
Proof. intros w Hw. now split. Qed.

Create HintDb keeps discriminated.

Ltac keep_step :=
  first
    [ apply keeps_ret
    | apply keeps_gets
    | solve [auto 2 with keeps]
    | apply keeps_bind; [| intros ?]
    | match goal with
      | |- keeps _ (match ?x with _ => _ end) => destruct x
      end
    | apply ensures_ret
    | apply ensures_bind; [| intros ?]
    | match goal with
      | |- ensures _ _ (match ?x with _ => _ end) => destruct x
      end ].

Ltac keep := repeat keep_step.

Section Invariant.

Variable E : backend.
Variable I : world -> Prop.
Variable remote : string.

Hypothesis I_disk : forall f rs w, I w -> I (set_disk f rs w).
Hypothesis I_report : forall msg w, I w -> I (add_report msg w).
Hypothesis I_alloc : forall w, I w -> I (add_alloc w).
Hypothesis I_call : forall c w, I w -> call_cred c = None -> I (add_call c w).
Hypothesis I_net :
  forall c url w,
    I w ->
    call_cred c
    = Some (fst (acquire_cred E (credentials_for E (remote_type_of remote))
                   url w)) ->
    I (add_call c
         (snd (acquire_cred E (credentials_for E (remote_type_of remote))
                 url w))).

Lemma keeps_report_error (msg : string) : keeps I (report_error msg).
Proof. intros w Hw. split; [now apply I_report | exact Logic.I]. Qed.

Lemma keeps_trace (c : backend_call) :
  call_cred c = None -> keeps I (trace c).
Proof. intros Hc w Hw. split; [now apply I_call | exact Logic.I]. Qed.

Lemma keeps_update_repo (h : string) (f : git_repository -> git_repository) :
  keeps I (update_repo h f).
Proof. intros w Hw. split; [now apply I_disk | exact Logic.I]. Qed.

Lemma keeps_format_string (text : string) : keeps I (format_string E text).
Proof. intros w Hw. split; [now apply I_alloc | exact Logic.I]. Qed.

Hint Resolve keeps_report_error keeps_update_repo keeps_format_string : keeps.
Hint Extern 1 (keeps _ (trace _)) =>
  apply keeps_trace; reflexivity : keeps.

Lemma keeps_check_clean (path : string) (status : Z) :
  keeps I (check_clean path status).
Proof. unfold check_clean. keep. Qed.

Hint Resolve keeps_check_clean : keeps.

Lemma keeps_status_entries (entries : list (string * Z)) :
  keeps I (status_entries check_clean entries).
Proof. induction entries as [|[path flags] rest IH]; simpl; keep. Qed.

Hint Resolve keeps_status_entries : keeps.

Lemma keeps_git_status_foreach (repo : string) :
  keeps I (git_status_foreach repo check_clean).
Proof. unfold git_status_foreach. keep. Qed.

Lemma keeps_git_merge_base (repo : string) (one two : git_oid) :
  keeps I (git_merge_base E repo one two).
Proof. unfold git_merge_base. keep. Qed.

Lemma keeps_git_reference_set_target (r : git_reference) (id : git_oid) :
  keeps I (git_reference_set_target E r id).
Proof. unfold git_reference_set_target. keep. Qed.

Lemma keeps_git_object_lookup (repo : string) (id : git_oid) :
  keeps I (git_object_lookup E repo id).
Proof. unfold git_object_lookup. keep. Qed.

Lemma keeps_git_reset (repo : string) (id : git_oid) :
  keeps I (git_reset E repo id).
Proof. unfold git_reset. keep. Qed.

Lemma keeps_git_config_set_string (repo key value : string) :
  keeps I (git_config_set_string repo key value).
Proof. unfold git_config_set_string. keep. Qed.

Hint Resolve keeps_git_status_foreach keeps_git_merge_base
  keeps_git_reference_set_target keeps_git_object_lookup keeps_git_reset
  keeps_git_config_set_string : keeps.

Lemma keeps_git_repository_is_bare (repo : string) :
  keeps I (git_repository_is_bare repo).
Proof. apply keeps_gets. Qed.

Lemma keeps_git_branch_is_head (r : git_reference) :
  keeps I (git_branch_is_head r).
Proof. apply keeps_gets. Qed.

Lemma keeps_git_repository_open (path : string) :
  keeps I (git_repository_open path).
Proof. apply keeps_gets. Qed.

Lemma keeps_git_remote_lookup (repo name : string) :
  keeps I (git_remote_lookup repo name).
Proof. apply keeps_gets. Qed.

Lemma keeps_lookup_reference (repo name : string) :
  keeps I (lookup_reference repo name).
Proof. apply keeps_gets. Qed.

Lemma keeps_stat (path : string) : keeps I (stat path).
Proof. apply keeps_gets. Qed.

Hint Resolve keeps_git_repository_is_bare keeps_git_branch_is_head
  keeps_git_repository_open keeps_git_remote_lookup keeps_lookup_reference
  keeps_stat : keeps.

Lemma keeps_git_branch_lookup (repo branch : string) :
  keeps I (git_branch_lookup repo branch).
Proof. unfold git_branch_lookup. keep. Qed.

Lemma keeps_git_branch_upstream (local : git_reference) :
  keeps I (git_branch_upstream local).
Proof. unfold git_branch_upstream. keep. Qed.

Hint Resolve keeps_git_branch_lookup keeps_git_branch_upstream : keeps.

(** The three operations that go over the network ask for credentials
    and leave the call, with what they were given, in the trace. *)
Lemma keeps_git_remote_push (origin : git_remote) (refspec : string) :
  keeps I (git_remote_push E origin refspec
             (credentials_for E (remote_type_of remote))).
Proof.
  intros w Hw. rewrite git_remote_push_run. cbn zeta. cbn [fst snd].
  split; [| exact Logic.I]. now apply I_net.
Qed.

Lemma keeps_git_remote_fetch (origin : git_remote) :
  keeps I (git_remote_fetch E origin
             (credentials_for E (remote_type_of remote))).
Proof.
  intros w Hw. unfold git_remote_fetch.
  rewrite !bind_run, trace_run. cbn [fst snd].
  split; [| exact Logic.I].
  destruct (fetched E (remote_owner origin)).
  - rewrite bind_run, update_repo_run, ret_run. cbn [fst snd].
    apply I_disk. now apply I_net.
  - rewrite ret_run. cbn [snd]. now apply I_net.
Qed.

Lemma keeps_git_clone (url localdir branch : string) :
  keeps I (git_clone E url localdir branch
             (credentials_for E (remote_type_of remote))).
Proof.
  intros w Hw. unfold git_clone.
  rewrite !bind_run, trace_run. cbn [fst snd].
  split; [| exact Logic.I].
  destruct (cloned E url branch).
  - rewrite bind_run, modify_run, ret_run. cbn [fst snd].
    apply I_disk. now apply I_net.
  - rewrite ret_run. cbn [snd]. now apply I_net.
Qed.

Hint Resolve keeps_git_remote_push keeps_git_remote_fetch keeps_git_clone
  : keeps.

Lemma keeps_reset_to_remote (repo : string) (local : git_reference)
    (id : git_oid) :
  keeps I (reset_to_remote E repo local id).
Proof. unfold reset_to_remote. keep. Qed.

Lemma keeps_update_remote (repo : string) (origin : git_remote)
    (local upstream : git_reference) :
  keeps I (update_remote E repo origin local upstream
             (remote_type_of remote)).
Proof. unfold update_remote. keep. Qed.

Hint Resolve keeps_reset_to_remote keeps_update_remote : keeps.

Lemma keeps_try_to_update (repo : string) (origin : git_remote)
    (local upstream : git_reference) :
  keeps I (try_to_update E repo origin local upstream
             (remote_type_of remote)).
Proof. unfold try_to_update. keep. Qed.

Hint Resolve keeps_try_to_update : keeps.

Lemma keeps_check_remote_status (repo : string) (origin : git_remote)
    (branch : string) :
  keeps I (check_remote_status E repo origin branch (remote_type_of remote)).
Proof. unfold check_remote_status. keep. Qed.

Hint Resolve keeps_check_remote_status : keeps.

Lemma ensures_update_local_repo (localdir branch : string) :
  ensures I not_dummy (update_local_repo E localdir remote branch).
Proof. unfold update_local_repo, not_dummy. keep; discriminate. Qed.

Lemma ensures_create_local_repo (localdir branch : string) :
  ensures I not_dummy (create_local_repo E localdir remote branch).
Proof. unfold create_local_repo, not_dummy. keep; discriminate. Qed.

Hint Resolve ensures_update_local_repo ensures_create_local_repo : keeps.

Lemma ensures_get_remote_repo (localdir branch : string) :
  ensures I not_dummy (get_remote_repo E localdir remote branch).
Proof. unfold get_remote_repo. keep. all: unfold not_dummy; discriminate. Qed.

End Invariant.

(** ** The point of no return *)

Lemma format_string_run (E : backend) (text : string) (w : world) :
  format_string E text w
  = (if alloc_ok E (allocs w) then Some text else None, add_alloc w).
Proof. reflexivity. Qed.

Lemma stat_run (path : string) (w : world) : stat path w = (fs w !! path, w).
Proof. reflexivity. Qed.

Lemma git_repository_open_run (path : string) (w : world) :
  git_repository_open path w
  = (match repos w !! path with Some _ => Some path | None => None end, w).
Proof. reflexivity. Qed.

Ltac settle :=
  splits;
  first [ discriminate | reflexivity
        | intros [H|H]; discriminate
        | intros H; now destruct H
        | intros _ _; reflexivity
        | idtac ].

(** A remote locator yields NULL or an open repository, never the dummy. *)
Lemma is_remote_git_repository_not_dummy (E : backend) (remote branch : string)
    (w : world) :
  fst (fst (is_remote_git_repository E remote branch w))
  <> dummy_git_repository.
Proof.
  unfold is_remote_git_repository.
  destruct (looks_remote remote); cbn [negb]; [| discriminate].
  cbv zeta. rewrite bind_run.
  match goal with |- context [fst (?m w)] => destruct (m w) as [url w1] end.
  cbn [fst snd]. rewrite bind_run.
  destruct (get_local_dir E url branch w1) as [[dir|] w2]; cbn [fst snd];
    [| discriminate].
  rewrite bind_run, ret_run. cbn [fst snd].
  assert (H : ensures (fun _ => True) not_dummy
                (get_remote_repo E dir url branch))
    by (apply ensures_get_remote_repo; auto).
  exact (proj2 (H w2 Logic.I)).
Qed.

(** C9.  Once the name has the shape of a locator, [is_git_repository]
    does not return NULL.  It returns the dummy repository, with the
    branch pointer at the whole file name, when the path or the branch
    cannot be allocated, and when the locator is not a remote one and its
    path is not a directory or does not open as a repository; otherwise it
    returns the repository with the branch pointer at the branch text. *)
Theorem is_git_repository_point_of_no_return (E : backend)
    (filename loc branch : string) (w : world) :
  parse_locator filename = Some (loc, branch) ->
  let run := is_git_repository E filename w in
  let repo := fst (fst run) in
  let branchp := snd (fst run) in
  let found :=
    is_remote_git_repository E loc branch (add_alloc (add_alloc w)) in
  repo <> NULL
  /\ (repo = dummy_git_repository -> branchp = Some filename)
  /\ (repo <> dummy_git_repository -> branchp = Some branch)
  /\ (alloc_ok E (allocs w) = false \/ alloc_ok E (S (allocs w)) = false ->
      repo = dummy_git_repository)
  /\ (alloc_ok E (allocs w) = true -> alloc_ok E (S (allocs w)) = true ->
      match fst (fst found) with
      | NULL =>
          match fs (snd found) !! snd (fst found),
                repos (snd found) !! snd (fst found) with
          | Some true, Some _ => repo = Repo (snd (fst found))
          | _, _ => repo = dummy_git_repository
          end
      | opened => repo = opened
      end).
Proof.
  unfold parse_locator. intros Hshape.
  destruct (locator_shape filename) as [[[flen blen] offset]|] eqn:Hs;
    [| discriminate].
  remember (str_take flen filename) as loc' eqn:Hloc.
  remember (str_take blen (str_drop (flen + offset) filename)) as branch'
    eqn:Hbranch.
  injection Hshape as -> ->.
  cbv zeta. unfold is_git_repository. rewrite Hs, <- Hloc, <- Hbranch.
  rewrite bind_run, format_string_run. cbn [fst snd].
  destruct (alloc_ok E (allocs w)) eqn:A1.
  2: { rewrite ret_run; cbn [fst snd]. settle. }
  rewrite bind_run, format_string_run. cbn [fst snd].
  change (allocs (add_alloc w)) with (S (allocs w)).
  destruct (alloc_ok E (S (allocs w))) eqn:A2.
  2: { rewrite ret_run; cbn [fst snd]. settle. }
  rewrite bind_run.
  pose proof (is_remote_git_repository_not_dummy E loc branch
                (add_alloc (add_alloc w))) as Hnd.
  destruct (is_remote_git_repository E loc branch (add_alloc (add_alloc w)))
    as [[r buffer] w1].
  cbn [fst snd] in *.
  destruct r as [| |path]; cbv beta iota.
  - rewrite (bind_run (stat buffer)), stat_run. cbn [fst snd].
    destruct (fs w1 !! buffer) as [[|]|]; cbv beta iota.
    + rewrite (bind_run (git_repository_open buffer)),
        git_repository_open_run.
      cbn [fst snd].
      destruct (repos w1 !! buffer); rewrite ret_run; cbn [fst snd]; settle.
    + rewrite ret_run; cbn [fst snd]. settle.
    + rewrite ret_run; cbn [fst snd]. settle.
  - now destruct Hnd.
  - rewrite ret_run; cbn [fst snd]. settle.
Qed.

(** A local path that is not on disk: the dummy comes back with the whole
    name. *)
Lemma is_git_repository_point_of_no_return_witness :
  let run := is_git_repository Samples.willing "/a/b/c[mybranch]"
               Samples.empty_world in
  fst (fst run) <> NULL
  /\ (fst (fst run) = dummy_git_repository ->
      snd (fst run) = Some "/a/b/c[mybranch]").
Proof.
  pose proof (is_git_repository_point_of_no_return Samples.willing
                "/a/b/c[mybranch]" "/a/b/c" "mybranch" Samples.empty_world
                eq_refl) as H.
  exact (conj (proj1 H) (proj1 (proj2 H))).
Defined.

(** ** The account and the credentials *)

Lemma split_account_https (remote account rest : string) :
  split_account remote = Some (account, rest) ->
  has_prefix "https://" remote = true /\ has_prefix "https://" rest = true.
Proof.
  unfold split_account.
  destruct (has_prefix "https://" remote) eqn:Hp; [| discriminate].
  destruct (strchr remote "@") as [at_|]; [| discriminate].
  destruct (strchr (str_drop 8 remote) "/") as [s|]; [| discriminate].
  destruct (at_ <? 8 + s)%nat; [| discriminate].
  intros H. injection H as _ <-. split; [reflexivity |].
  rewrite (has_prefix_split _ _ Hp) at 1.
  change (str_take 8 ("https://" +:+ str_drop (String.length "https://") remote))
    with "https://".
  apply has_prefix_app.
Qed.

Lemma https_is_remote (remote : string) :
  has_prefix "https://" remote = true ->
  looks_remote remote = true /\ has_prefix "file://" remote = false
  /\ remote_type_of remote = HTTPS.
Proof.
  intros H. rewrite (has_prefix_split _ _ H).
  generalize (str_drop (String.length "https://") remote). intros tail.
  splits; [reflexivity | reflexivity |].
  unfold remote_type_of. rewrite has_prefix_app.
  change (has_prefix "ssh://" ("https://" +:+ tail)) with false.
  reflexivity.
Qed.

Lemma credential_https_cb_run (url : string) (user : option string)
    (w : world) :
  credential_https_cb url user w
  = (cred_userpass_plaintext (cloud_storage_email_encoded (prefs w))
       (default "" (cloud_storage_password (prefs w))), w).
Proof.
  unfold credential_https_cb, password_or_empty.
  rewrite !bind_run, !gets_run, ret_run. cbn [fst snd].
  now destruct (cloud_storage_password (prefs w)).
Qed.

Lemma account_kept_net (E : backend) (remote account : string)
    (password : option string) (others : gmap string string)
    (base : list backend_call) (c : backend_call) (url : string) (w : world) :
  USE_LIBGIT23_API E = true ->
  remote_type_of remote = HTTPS ->
  account_kept account password others base w ->
  call_cred c
  = Some (fst (acquire_cred E (credentials_for E (remote_type_of remote))
                 url w)) ->
  account_kept account password others base
    (add_call c
       (snd (acquire_cred E (credentials_for E (remote_type_of remote))
               url w))).
Proof.
  intros Hapi Hrt (He & Hp & Ho & new & Hc & Hall).
  unfold credentials_for. rewrite Hapi, Hrt. unfold acquire_cred.
  rewrite bind_run, credential_https_cb_run, ret_run. cbn [fst snd].
  rewrite He, Hp. intros Hcred.
  unfold account_kept. splits; try assumption.
  exists (new ++ [c]). split.
  - cbn. now rewrite Hc, app_assoc.
  - apply Forall_app. split; [exact Hall |].
    constructor; [| constructor].
    intros cred Hc'. rewrite Hcred in Hc'. now injection Hc' as <-.
Qed.

Lemma account_kept_call (account : string) (password : option string)
    (others : gmap string string) (base : list backend_call)
    (c : backend_call) (w : world) :
  account_kept account password others base w ->
  call_cred c = None ->
  account_kept account password others base (add_call c w).
Proof.
  intros (He & Hp & Ho & new & Hc & Hall) Hnone.
  unfold account_kept. splits; try assumption.
  exists (new ++ [c]). split.
  - cbn. now rewrite Hc, app_assoc.
  - apply Forall_app. split; [exact Hall |].
    constructor; [| constructor].
    intros cred Hc'. rewrite Hnone in Hc'. discriminate.
Qed.

(** Parsing leaves the stored password and the other preferences alone. *)
Lemma is_remote_git_repository_frame (E : backend) (remote branch : string)
    (p : preferences) :
  keeps (fun w => same_but_account p (prefs w))
    (is_remote_git_repository E remote branch).
Proof.
  unfold is_remote_git_repository.
  destruct (looks_remote remote); cbn [negb]; [| apply keeps_ret].
  cbv zeta. apply keeps_bind.
  - destruct (split_account _) as [[account rest]|]; [| apply keeps_ret].
    apply keeps_bind; [| intros; apply keeps_ret].
    intros w Hw. split; [exact Hw | exact Logic.I].
  - intros url. apply keeps_bind.
    + apply keeps_format_string. auto.
    + intros [dir|]; [| apply keeps_ret].
      apply keeps_bind; [| intros; apply keeps_ret].
      apply (ensures_keeps _ not_dummy).
      apply ensures_get_remote_repo; auto.
      intros c u w Hw _.
      destruct (acquire_cred_frame E (remote_type_of url) u w) as (Hf & _).
      cbv beta in *. cbn [prefs add_call]. now rewrite Hf.
Qed.

Lemma is_git_repository_frame (E : backend) (filename : string)
    (p : preferences) :
  keeps (fun w => same_but_account p (prefs w)) (is_git_repository E filename).
Proof.
  unfold is_git_repository.
  destruct (locator_shape filename) as [[[flen blen] offset]|];
    [| apply keeps_ret].
  apply keeps_bind; [apply keeps_format_string; auto |].
  intros [loc|]; [| apply keeps_ret].
  apply keeps_bind; [apply keeps_format_string; auto |].
  intros [branch|]; [| apply keeps_ret].
  apply keeps_bind; [apply is_remote_git_repository_frame |].
  intros [[| |path] buffer]; try apply keeps_ret.
  apply keeps_bind; [apply keeps_gets |].
  intros [[|]|]; try apply keeps_ret.
  apply keeps_bind; [apply keeps_gets |].
  intros [opened|]; apply keeps_ret.
Qed.

(** C10.  When [is_remote_git_repository] takes an account out of an
    https url, the account is stored in the preferences' encoded account
    field, the password and the other preferences stay as they were, the
    https credentials callback answers with that account as user name, and
    every fetch, push and clone of the run was given exactly these
    credentials; and whatever the file name, [is_git_repository] changes
    no preference other than the encoded account. *)
Theorem embedded_account_reaches_credentials (E : backend)
    (remote branch account rest : string) (w : world) :
  USE_LIBGIT23_API E = true ->
  split_account remote = Some (account, rest) ->
  let w' := snd (is_remote_git_repository E remote branch w) in
  let password := cloud_storage_password (prefs w) in
  cloud_storage_email_encoded (prefs w') = Some account
  /\ same_but_account (prefs w) (prefs w')
  /\ (forall url user,
         fst (credential_https_cb url user w')
         = cred_userpass_plaintext (Some account) (default "" password))
  /\ (exists new,
         calls w' = calls w ++ new /\ Forall (carries account password) new)
  /\ (forall filename w0,
         same_but_account (prefs w0)
           (prefs (snd (is_git_repository E filename w0)))).
Proof.
  intros Hapi Hsplit w' password.
  destruct (split_account_https _ _ _ Hsplit) as [Hp Hp'].
  destruct (https_is_remote _ Hp) as (Hlooks & Hfile & _).
  destruct (https_is_remote _ Hp') as (_ & _ & Hrt).
  assert (Hkept : account_kept account password (other_preferences (prefs w))
                    (calls w) w').
  { unfold w', is_remote_git_repository.
    rewrite Hlooks, Hfile. cbn [negb]. cbv zeta.
    change (str_drop 0 remote) with remote. rewrite Hsplit.
    rewrite bind_run. rewrite (bind_run (modify _)), modify_run, ret_run.
    cbn [fst snd].
    set (w0 := set_prefs (set_email_encoded (Some account) (prefs w)) w).
    assert (H0 : account_kept account password (other_preferences (prefs w))
                   (calls w) w0).
    { unfold account_kept. splits; try reflexivity.
      exists []. split; [| constructor].
      cbn. now rewrite app_nil_r. }
    rewrite bind_run.
    assert (Hfmt : keeps (account_kept account password
                            (other_preferences (prefs w)) (calls w))
                     (get_local_dir E rest branch))
      by (apply keeps_format_string; auto).
    destruct (Hfmt w0 H0) as [H1 _].
    destruct (get_local_dir E rest branch w0) as [[dir|] w1];
      cbn [fst snd] in *; [| exact H1].
    rewrite bind_run, ret_run. cbn [fst snd].
    assert (Hget : ensures (account_kept account password
                              (other_preferences (prefs w)) (calls w))
                     not_dummy (get_remote_repo E dir rest branch)).
    { apply ensures_get_remote_repo; auto.
      - intros c w2 Hw2 Hc. now apply account_kept_call.
      - intros c url w2 Hw2 Hc. now apply account_kept_net. }
    exact (proj1 (Hget w1 H1)). }
  destruct Hkept as (He & Hpw & Ho & Hcalls).
  splits.
  - exact He.
  - split; assumption.
  - intros url user. rewrite credential_https_cb_run. cbn [fst].
    now rewrite He, Hpw.
  - exact Hcalls.
  - intros filename w0.
    refine (proj1 (is_git_repository_frame E filename (prefs w0) w0 _)).
    split; reflexivity.
Qed.

(** Cloning the example locator's url for the first time. *)
Lemma embedded_account_reaches_credentials_witness :
  let w' := snd (is_remote_git_repository Samples.willing
                   "https://user%40host@example.com/repo" "main"
                   Samples.empty_world) in
  cloud_storage_email_encoded (prefs w') = Some "user%40host"
  /\ exists new,
       calls w' = calls Samples.empty_world ++ new
       /\ Forall (carries "user%40host" None) new.
Proof.
  pose proof (embedded_account_reaches_credentials Samples.willing
                "https://user%40host@example.com/repo" "main"
                "user%40host" "https://example.com/repo" Samples.empty_world
                eq_refl eq_refl) as H.
  exact (conj (proj1 H) (proj1 (proj2 (proj2 (proj2 H))))).
Defined.

(** ** The claims about the parser and the address *)

(** C4 (amended).  A path is taken for a remote locator exactly when it
    begins with zero or more lowercase letters followed at once by [://];
    on any other path [is_remote_git_repository] returns NULL at once and
    touches nothing, so the path is treated as a local one. *)
Theorem remote_scheme_detection (E : backend) (remote branch : string)
    (w : world) :
  (looks_remote remote = true <-> scheme_prefixed 0 remote)
  /\ (looks_remote remote = false ->
      is_remote_git_repository E remote branch w = ((NULL, remote), w)).
Proof.
  split; [apply looks_remote_iff |].
  intros H. unfold is_remote_git_repository. now rewrite H.
Qed.

Lemma remote_scheme_detection_witness :
  is_remote_git_repository Samples.willing "/a/b/c" "mybranch"
    Samples.empty_world
  = ((NULL, "/a/b/c"), Samples.empty_world).
Proof.
  exact (proj2 (remote_scheme_detection Samples.willing "/a/b/c" "mybranch"
                  Samples.empty_world) eq_refl).
Defined.

(** The claim as stated fails: a path that starts with [://], with no
    letter in front, passes the scheme test and is cloned as a remote. *)
Lemma bare_scheme_is_remote :
  looks_remote "://host/repo" = true
  /\ ~ scheme_prefixed 1 "://host/repo"
  /\ fst (fst (is_remote_git_repository Samples.willing "://host/repo" "main"
                 Samples.empty_world))
     = Repo (local_dir_name Samples.willing "://host/repo" "main").
Proof.
  splits; [reflexivity | | vm_compute; reflexivity].
  intros (letters & rest & Hlen & Hlower & Heq).
  destruct letters as [|c letters]; [simpl in Hlen; lia |].
  simpl in Heq. injection Heq as <- _.
  simpl in Hlower. discriminate.
Qed.

(** C5.  [get_local_dir] answers, whenever its allocation succeeds, the
    cache root, a slash and sixteen digits of lowercase hexadecimal: the
    first eight bytes of the SHA-1 digest of the remote, a zero byte and
    the branch; it changes nothing but the allocation count.  No two pairs
    of C strings give the digest the same bytes, and the addresses of
    ("repo1", "branch") and ("repo", "1branch") differ. *)
Theorem get_local_dir_address (E : backend) (remote branch : string)
    (w : world) :
  get_local_dir E remote branch w
  = (if alloc_ok E (allocs w) then Some (local_dir_name E remote branch)
     else None, add_alloc w)
  /\ (exists hex,
         local_dir_name E remote branch = default_directory E +:+ "/" +:+ hex
         /\ hex = hex_string
                    (firstn 8 (Sha1.digest (address_preimage remote branch)))
         /\ String.length hex = 16%nat
         /\ all_lower_hex hex = true)
  /\ (forall remote' branch',
         cstring remote -> cstring remote' ->
         address_preimage remote branch = address_preimage remote' branch' ->
         remote = remote' /\ branch = branch')
  /\ local_dir_name E "repo1" "branch" <> local_dir_name E "repo" "1branch".
Proof.
  splits.
  - reflexivity.
  - eexists. splits; [apply local_dir_name_eq | reflexivity | |].
    + rewrite hex_string_length, length_take, digest_length. reflexivity.
    + apply hex_string_lower.
  - intros remote' branch'. apply address_preimage_inj.
  - rewrite !local_dir_name_eq. intros H.
    apply str_app_inv_head, str_app_inv_head in H.
    vm_compute in H. discriminate H.
Qed.

Lemma get_local_dir_address_witness :
  local_dir_name Samples.willing "repo1" "branch"
  <> local_dir_name Samples.willing "repo" "1branch".
Proof.
  exact (proj2 (proj2 (proj2
    (get_local_dir_address Samples.willing "repo1" "branch"
       Samples.empty_world)))).
Defined.

Lemma parse_locator_unclosed (s : string) :
  char_at s (String.length s - 1) <> "]"%char -> parse_locator s = None.
Proof.
  intros H. unfold parse_locator, locator_shape.
  destruct (String.length s) as [|n]; [reflexivity |].
  replace (S n - 1)%nat with n in H by lia.
  apply Ascii.eqb_neq in H. now rewrite H.
Qed.

Lemma is_git_repository_rejects (E : backend) (filename : string) (w : world) :
  parse_locator filename = None ->
  is_git_repository E filename w = ((NULL, None), w).
Proof.
  unfold parse_locator, is_git_repository.
  now destruct (locator_shape filename) as [[[flen blen] offset]|].
Qed.

(** Past the scan, [is_git_repository] works on the parsed parts: the path
    goes to [is_remote_git_repository] with the branch text, and what that
    leaves in the buffer is opened in place when it answers NULL. *)
Lemma is_git_repository_parsed (E : backend) (filename loc branch : string)
    (w : world) :
  parse_locator filename = Some (loc, branch) ->
  alloc_ok E (allocs w) = true ->
  alloc_ok E (S (allocs w)) = true ->
  let found := is_remote_git_repository E loc branch (add_alloc (add_alloc w)) in
  let buffer := snd (fst found) in
  is_git_repository E filename w
  = match fst (fst found) with
    | NULL =>
        (match fs (snd found) !! buffer, repos (snd found) !! buffer with
         | Some true, Some _ => (Repo buffer, Some branch)
         | _, _ => (dummy_git_repository, Some filename)
         end, snd found)
    | repo => ((repo, Some branch), snd found)
    end.
Proof.
  unfold parse_locator. intros Hshape A1 A2.
  destruct (locator_shape filename) as [[[flen blen] offset]|] eqn:Hs;
    [| discriminate].
  remember (str_take flen filename) as loc' eqn:Hloc.
  remember (str_take blen (str_drop (flen + offset) filename)) as branch'
    eqn:Hbranch.
  injection Hshape as -> ->.
  cbv zeta. unfold is_git_repository. rewrite Hs, <- Hloc, <- Hbranch.
  rewrite bind_run, format_string_run, A1. cbn [fst snd].
  rewrite bind_run, format_string_run. cbn [fst snd].
  change (allocs (add_alloc w)) with (S (allocs w)). rewrite A2.
  rewrite bind_run.
  destruct (is_remote_git_repository E loc branch (add_alloc (add_alloc w)))
    as [[repo buffer] w1].
  cbn [fst snd].
  destruct repo as [| |path]; try reflexivity.
  rewrite (bind_run (stat buffer)), stat_run. cbn [fst snd].
  destruct (fs w1 !! buffer) as [[|]|]; try reflexivity.
  rewrite (bind_run (git_repository_open buffer)), git_repository_open_run.
  cbn [fst snd]. now destruct (repos w1 !! buffer).
Qed.

(** A path that fails the scheme test is opened where it is. *)
Lemma is_git_repository_in_place (E : backend) (filename loc branch : string)
    (g : git_repository) (w : world) :
  parse_locator filename = Some (loc, branch) ->
  looks_remote loc = false ->
  alloc_ok E (allocs w) = true ->
  alloc_ok E (S (allocs w)) = true ->
  fs w !! loc = Some true ->
  repos w !! loc = Some g ->
  is_git_repository E filename w
  = ((Repo loc, Some branch), add_alloc (add_alloc w)).
Proof.
  intros Hparse Hlocal A1 A2 Hdir Hrepo.
  rewrite (is_git_repository_parsed E filename loc branch w Hparse A1 A2).
  cbv zeta. unfold is_remote_git_repository. rewrite Hlocal. cbn [negb].
  rewrite ret_run. cbn [fst snd].
  change (fs (add_alloc (add_alloc w))) with (fs w).
  change (repos (add_alloc (add_alloc w))) with (repos w).
  now rewrite Hdir, Hrepo.
Qed.

(** C6.  A name made of a non-empty path that does not end in a
    separator, any number of separators and a bracketed text without [[]
    parses into that path and that text; so the two example locators give
    the same path and branch.  A name that does not end in []], that holds
    no [[], or whose path is empty once the separators are stripped does
    not parse, and [is_git_repository] then returns NULL and changes
    nothing.  On a name that parses, [is_git_repository] works on the
    parsed parts: it hands the path and the branch text to
    [is_remote_git_repository], and opens what that leaves in place when
    it answers NULL; so a path that fails the scheme test and is a
    directory holding a repository is returned as that repository, with
    the branch text, and both example locators open [/a/b/c] at
    [mybranch]. *)
Theorem parse_locator_brackets :
  (forall path text k,
      path <> "" ->
      char_at path (String.length path - 1) <> "/"%char ->
      strchr text "[" = None ->
      parse_locator (path +:+ slashes k +:+ "[" +:+ text +:+ "]")
      = Some (path, text))
  /\ parse_locator "/a/b/c[mybranch]" = Some ("/a/b/c", "mybranch")
  /\ parse_locator "/a/b/c///[mybranch]" = Some ("/a/b/c", "mybranch")
  /\ parse_locator "/a/b/c" = None
  /\ (forall s, char_at s (String.length s - 1) <> "]"%char ->
                parse_locator s = None)
  /\ (forall s, strchr s "[" = None -> parse_locator s = None)
  /\ (forall text k,
         strchr text "[" = None ->
         parse_locator (slashes k +:+ "[" +:+ text +:+ "]") = None)
  /\ (forall E filename w,
         parse_locator filename = None ->
         is_git_repository E filename w = ((NULL, None), w))
  /\ (forall E filename loc branch w,
         parse_locator filename = Some (loc, branch) ->
         alloc_ok E (allocs w) = true ->
         alloc_ok E (S (allocs w)) = true ->
         let found := is_remote_git_repository E loc branch
                        (add_alloc (add_alloc w)) in
         let buffer := snd (fst found) in
         is_git_repository E filename w
         = match fst (fst found) with
           | NULL =>
               (match fs (snd found) !! buffer,
                      repos (snd found) !! buffer with
                | Some true, Some _ => (Repo buffer, Some branch)
                | _, _ => (dummy_git_repository, Some filename)
                end, snd found)
           | repo => ((repo, Some branch), snd found)
           end)
  /\ (forall E path text k g w,
         path <> "" ->
         char_at path (String.length path - 1) <> "/"%char ->
         strchr text "[" = None ->
         looks_remote path = false ->
         alloc_ok E (allocs w) = true ->
         alloc_ok E (S (allocs w)) = true ->
         fs w !! path = Some true ->
         repos w !! path = Some g ->
         is_git_repository E (path +:+ slashes k +:+ "[" +:+ text +:+ "]") w
         = ((Repo path, Some text), add_alloc (add_alloc w)))
  /\ (forall E g w,
         alloc_ok E (allocs w) = true ->
         alloc_ok E (S (allocs w)) = true ->
         fs w !! "/a/b/c" = Some true ->
         repos w !! "/a/b/c" = Some g ->
         is_git_repository E "/a/b/c[mybranch]" w
         = ((Repo "/a/b/c", Some "mybranch"), add_alloc (add_alloc w))
         /\ is_git_repository E "/a/b/c///[mybranch]" w
            = ((Repo "/a/b/c", Some "mybranch"), add_alloc (add_alloc w))
         /\ is_git_repository E "/a/b/c" w = ((NULL, None), w)).
Proof.
  splits.
  - apply parse_locator_shaped.
  - reflexivity.
  - reflexivity.
  - reflexivity.
  - apply parse_locator_unclosed.
  - apply parse_locator_no_bracket.
  - apply parse_locator_no_path.
  - apply is_git_repository_rejects.
  - apply is_git_repository_parsed.
  - intros E path text k g w Hpath Hsep Htext Hlocal A1 A2 Hdir Hrepo.
    apply (is_git_repository_in_place E _ path text g w); try assumption.
    now apply parse_locator_shaped.
  - intros E g w A1 A2 Hdir Hrepo. splits.
    + now apply (is_git_repository_in_place E _ "/a/b/c" "mybranch" g w).
    + now apply (is_git_repository_in_place E _ "/a/b/c" "mybranch" g w).
    + now apply is_git_repository_rejects.
Qed.

Lemma parse_locator_brackets_witness :
  parse_locator ("/a/b/c" +:+ slashes 3 +:+ "[" +:+ "mybranch" +:+ "]")
  = Some ("/a/b/c", "mybranch")
  /\ is_git_repository Samples.willing
       ("/a/b/c" +:+ slashes 3 +:+ "[" +:+ "mybranch" +:+ "]") Samples.abc_world
     = ((Repo "/a/b/c", Some "mybranch"), add_alloc (add_alloc Samples.abc_world)).
Proof.
  split.
  - exact (proj1 parse_locator_brackets "/a/b/c" "mybranch" 3%nat
             ltac:(discriminate) ltac:(discriminate) eq_refl).
  - exact (proj1 (proj2 (proj2 (proj2 (proj2 (proj2 (proj2 (proj2 (proj2
             (proj2 parse_locator_brackets)))))))))
             Samples.willing "/a/b/c" "mybranch" 3%nat
             (Samples.cache_repo false []) Samples.abc_world
             ltac:(discriminate) ltac:(discriminate) eq_refl eq_refl
             eq_refl eq_refl eq_refl eq_refl).
Defined.

(** Without an account to take out, [is_remote_git_repository] leaves the
    caller's buffer and the preferences as they were. *)
Lemma is_remote_git_repository_untouched (E : backend) (remote branch : string)
    (w : world) :
  split_account
    (str_drop (if has_prefix "file://" remote then 7 else 0) remote) = None ->
  let run := is_remote_git_repository E remote branch w in
  snd (fst run) = remote /\ prefs (snd run) = prefs w.
Proof.
  intros Hnone. cbv zeta. unfold is_remote_git_repository.
  destruct (looks_remote remote); cbn [negb]; [| now split].
  cbv zeta. rewrite Hnone. rewrite bind_run, ret_run. cbn [fst snd].
  set (skipped := if has_prefix "file://" remote then 7%nat else 0%nat).
  set (url := str_drop skipped remote).
  assert (Hkeep : forall dir,
             keeps (fun w' => prefs w' = prefs w)
               (get_remote_repo E dir url branch)).
  { intros dir. apply (ensures_keeps _ not_dummy).
    apply ensures_get_remote_repo; auto.
    intros c u w0 Hw0 _.
    destruct (acquire_cred_frame E (remote_type_of url) u w0) as (Hf & _).
    cbn [prefs add_call]. now rewrite Hf. }
  rewrite bind_run.
  assert (Hdir : prefs (snd (get_local_dir E url branch w)) = prefs w)
    by reflexivity.
  destruct (get_local_dir E url branch w) as [[dir|] w1]; cbn [fst snd] in *.
  - rewrite bind_run, ret_run. cbn [fst snd]. split.
    + apply str_take_drop.
    + destruct (Hkeep dir w1 Hdir) as [H _]. exact H.
  - rewrite ret_run. cbn [fst snd]. split; [apply str_take_drop | exact Hdir].
Qed.

(** With an account to take out, [is_remote_git_repository] stores it,
    leaves the shortened url in the caller's buffer and goes on with the
    shortened url: the cache is addressed and acquired by it. *)
Lemma is_remote_git_repository_extracts (E : backend)
    (remote branch account rest : string) (w : world) :
  split_account remote = Some (account, rest) ->
  let stored := set_prefs (set_email_encoded (Some account) (prefs w)) w in
  let run := is_remote_git_repository E remote branch w in
  run = match get_local_dir E rest branch stored with
        | (Some dir, w1) =>
            let got := get_remote_repo E dir rest branch w1 in
            ((fst got, rest), snd got)
        | (None, w1) => ((NULL, rest), w1)
        end
  /\ snd (fst run) = rest
  /\ prefs (snd run) = set_email_encoded (Some account) (prefs w).
Proof.
  intros Hsplit. cbv zeta.
  destruct (split_account_https _ _ _ Hsplit) as [Hp _].
  destruct (https_is_remote _ Hp) as (Hlooks & Hfile & _).
  unfold is_remote_git_repository.
  rewrite Hlooks, Hfile. cbn [negb]. cbv zeta.
  change (str_drop 0 remote) with remote.
  change (str_take 0 remote) with "". rewrite Hsplit.
  rewrite bind_run. rewrite (bind_run (modify _)), modify_run, ret_run.
  cbn [fst snd].
  set (w0 := set_prefs (set_email_encoded (Some account) (prefs w)) w).
  assert (Hkeep : forall dir,
             keeps (fun w' => prefs w' = prefs w0)
               (get_remote_repo E dir rest branch)).
  { intros dir. apply (ensures_keeps _ not_dummy).
    apply ensures_get_remote_repo; auto.
    intros c u w1 Hw1 _.
    destruct (acquire_cred_frame E (remote_type_of rest) u w1) as (Hf & _).
    cbn [prefs add_call]. now rewrite Hf. }
  rewrite bind_run.
  assert (Hdir : prefs (snd (get_local_dir E rest branch w0)) = prefs w0)
    by reflexivity.
  destruct (get_local_dir E rest branch w0) as [[dir|] w1]; cbn [fst snd] in *.
  - rewrite bind_run, ret_run. cbn [fst snd]. splits; try reflexivity.
    destruct (Hkeep dir w1 Hdir) as [H _]. exact H.
  - rewrite ret_run. cbn [fst snd]. splits; try reflexivity. exact Hdir.
Qed.

(** C7.  In an https url, an [@] in front of the first [/] after the
    prefix ends the account: the text between the prefix and the [@] is
    taken out and the rest moves up behind the prefix.
    [is_remote_git_repository] then leaves the shortened url in the
    caller's buffer, stores the account, keeps the password, and addresses
    and acquires the cache by the shortened url.  An [@] at or after that
    [/] leaves the url, and the preferences, untouched.  The example
    locator yields the account "user%40host", leaves
    "https://example.com/repo" in the buffer and is cloned from it at
    branch "main". *)
Theorem https_account_extraction :
  (forall account rest,
      strchr account "@" = None -> strchr account "/" = None ->
      strchr rest "/" <> None ->
      split_account ("https://" +:+ account +:+ "@" +:+ rest)
      = Some (account, "https://" +:+ rest))
  /\ (forall host tail E branch w,
         strchr host "@" = None ->
         let url := "https://" +:+ host +:+ "/" +:+ tail in
         let run := is_remote_git_repository E url branch w in
         split_account url = None
         /\ snd (fst run) = url /\ prefs (snd run) = prefs w)
  /\ (let run := is_git_repository Samples.willing
                   "https://user%40host@example.com/repo[main]"
                   Samples.empty_world in
      let dir := local_dir_name Samples.willing "https://example.com/repo"
                   "main" in
      parse_locator "https://user%40host@example.com/repo[main]"
      = Some ("https://user%40host@example.com/repo", "main")
      /\ split_account "https://user%40host@example.com/repo"
         = Some ("user%40host", "https://example.com/repo")
      /\ fst run = (Repo dir, Some "main")
      /\ cloud_storage_email_encoded (prefs (snd run)) = Some "user%40host"
      /\ calls (snd run)
         = [call_clone "https://example.com/repo" dir "main"
              (Some (cred_userpass_plaintext (Some "user%40host") ""))])
  /\ (forall account rest E branch w,
         strchr account "@" = None -> strchr account "/" = None ->
         strchr rest "/" <> None ->
         let url := "https://" +:+ account +:+ "@" +:+ rest in
         let short := "https://" +:+ rest in
         let stored := set_prefs (set_email_encoded (Some account) (prefs w))
                         w in
         let run := is_remote_git_repository E url branch w in
         snd (fst run) = short
         /\ cloud_storage_email_encoded (prefs (snd run)) = Some account
         /\ cloud_storage_password (prefs (snd run))
            = cloud_storage_password (prefs w)
         /\ run = match get_local_dir E short branch stored with
                  | (Some dir, w1) =>
                      let got := get_remote_repo E dir short branch w1 in
                      ((fst got, short), snd got)
                  | (None, w1) => ((NULL, short), w1)
                  end)
  /\ snd (fst (is_remote_git_repository Samples.willing
                 "https://user%40host@example.com/repo" "main"
                 Samples.empty_world))
     = "https://example.com/repo".
Proof.
  splits.
  - apply split_account_found.
  - intros host tail E branch w Hat url run.
    assert (Hnone : split_account url = None)
      by (now apply split_account_in_path).
    split; [exact Hnone |].
    apply is_remote_git_repository_untouched.
    change (has_prefix "file://" url) with false. exact Hnone.
  - cbv zeta. splits; vm_compute; reflexivity.
  - intros account rest E branch w Hat Hslash Hrest. cbv zeta.
    destruct (is_remote_git_repository_extracts E _ branch _ _ w
                (split_account_found account rest Hat Hslash Hrest))
      as (Hrun & Hbuf & Hprefs).
    splits; [exact Hbuf | now rewrite Hprefs | now rewrite Hprefs
            | exact Hrun].
  - vm_compute. reflexivity.
Qed.

Lemma https_account_extraction_witness :
  split_account ("https://" +:+ "user%40host" +:+ "@" +:+ "example.com/repo")
  = Some ("user%40host", "https://" +:+ "example.com/repo")
  /\ split_account ("https://" +:+ "example.com" +:+ "/" +:+ "re@po") = None
  /\ snd (fst (is_remote_git_repository Samples.willing
                 ("https://" +:+ "user%40host" +:+ "@" +:+ "example.com/repo")
                 "main" Samples.empty_world))
     = "https://" +:+ "example.com/repo".
Proof.
  splits.
  - exact (proj1 https_account_extraction "user%40host" "example.com/repo"
             eq_refl eq_refl ltac:(discriminate)).
  - exact (proj1 (proj1 (proj2 https_account_extraction) "example.com" "re@po"
                    Samples.willing "main" Samples.empty_world eq_refl)).
  - exact (proj1 (proj1 (proj2 (proj2 (proj2 https_account_extraction)))
                    "user%40host" "example.com/repo" Samples.willing "main"
                    Samples.empty_world eq_refl eq_refl ltac:(discriminate))).
Defined.

(** C8 (amended).  The branch of an accepted locator is the text between
    the last [[] and the closing []]: the name is the path, separators,
    and that text in brackets.  The text may be empty; it is so exactly
    when the name ends in [[]]. *)
Theorem parse_locator_branch_text (filename loc branch : string) :
  parse_locator filename = Some (loc, branch) ->
  (exists k,
      filename = loc +:+ slashes k +:+ "[" +:+ branch +:+ "]"
      /\ strchr branch "[" = None)
  /\ (branch = "" <-> exists pre, filename = pre +:+ "[]").
Proof.
  intros H.
  destruct (parse_locator_inv _ _ _ H) as (k & Heq & _ & _ & Hno).
  split; [now exists k |].
  split.
  - intros ->. exists (loc +:+ slashes k).
    rewrite Heq. now rewrite !str_app_assoc.
  - intros (pre & Hpre).
    destruct branch as [|c branch]; [reflexivity |]. exfalso.
    set (body := String c branch) in *.
    assert (H1 : char_at filename (String.length filename - 2) = "["%char).
    { rewrite Hpre, str_app_length. simpl String.length.
      replace (String.length pre + 2 - 2)%nat
        with (String.length pre + 0)%nat by lia.
      now rewrite char_at_app_r. }
    assert (H2 : char_at filename (String.length filename - 2)
                 = char_at body (String.length body - 1)).
    { rewrite Heq.
      replace (loc +:+ slashes k +:+ "[" +:+ body +:+ "]")
        with ((loc +:+ slashes k +:+ "[") +:+ body +:+ "]")
        by (now rewrite !str_app_assoc).
      generalize (loc +:+ slashes k +:+ "["). intros front.
      rewrite (str_app_length front), (str_app_length body).
      replace (String.length front
               + (String.length body + String.length "]") - 2)%nat
        with (String.length front + (String.length body - 1))%nat
        by (unfold body; simpl; lia).
      rewrite char_at_app_r.
      apply char_at_app_l. unfold body; simpl; lia. }
    rewrite H2 in H1.
    apply (strchr_none_char_at body "[" (String.length body - 1) Hno);
      [unfold body; simpl; lia | exact H1].
Qed.

Lemma parse_locator_branch_text_witness :
  exists k,
    "/a/b/c///[mybranch]"
    = "/a/b/c" +:+ slashes k +:+ "[" +:+ "mybranch" +:+ "]"
    /\ strchr "mybranch" "[" = None.
Proof.
  exact (proj1 (parse_locator_branch_text "/a/b/c///[mybranch]" "/a/b/c"
                  "mybranch" eq_refl)).
Defined.

(** The claim as stated fails: a name with nothing between its brackets
    is accepted, and the repository comes back with an empty branch. *)
Lemma empty_brackets_accepted :
  parse_locator "a[]" = Some ("a", "")
  /\ fst (is_git_repository Samples.willing "a[]" Samples.local_world)
     = (Repo "a", Some "").
Proof. split; vm_compute; reflexivity. Qed.

(** * Further properties of the acquirer and the engine *)

(** ** Which handle comes back *)

Lemma fst_bind_const {A B : Type} (m : M A) (k : A -> M B) (v : B) (w : world) :
  (forall a w', fst (k a w') = v) -> fst (bind m k w) = v.
Proof. intros H. rewrite bind_run. apply H. Qed.

(** Once the cache repository opens, it is what [update_local_repo]
    returns, whatever the remote does. *)
Lemma update_local_repo_handle (E : backend) (localdir remote branch : string)
    (w : world) :
  fst (update_local_repo E localdir remote branch w)
  = match repos w !! localdir with
    | Some _ => Repo localdir
    | None => NULL
    end.
Proof.
  unfold update_local_repo.
  rewrite bind_run, git_repository_open_run. cbn [fst snd].
  destruct (repos w !! localdir) as [g|].
  - cbv zeta. apply fst_bind_const. intros _ w1.
    apply fst_bind_const. intros [origin|] w2.
    + apply fst_bind_const. intros error w3.
      apply fst_bind_const. intros _ w4. reflexivity.
    + apply fst_bind_const. intros _ w3. reflexivity.
  - apply fst_bind_const. intros _ w1. reflexivity.
Qed.

Lemma create_local_repo_handle (E : backend) (localdir remote branch : string)
    (w : world) :
  fst (create_local_repo E localdir remote branch w)
  = match cloned E remote branch with
    | Some _ => Repo localdir
    | None => NULL
    end.
Proof.
  unfold create_local_repo, git_clone.
  rewrite !bind_run, trace_run. cbn [fst snd].
  destruct (cloned E remote branch) as [g|].
  - rewrite bind_run, modify_run, ret_run. cbn [fst snd]. reflexivity.
  - rewrite ret_run. cbn [fst snd]. rewrite bind_run. reflexivity.
Qed.

(** X1.  [get_remote_repo] loses the handle in exactly three cases: the
    cache path is not a directory (one report is made, and nothing else
    happens), the cache directory does not open as a repository, or there
    is no cache yet and the clone fails.  In every other case it returns
    the repository at the cache path, whatever lookup of the origin, fetch
    and synchronisation do.  The text of the corruption report is not
    fixed by the code, whose format has a [%s] and no argument for it. *)
Theorem get_remote_repo_handle (E : backend) (localdir remote branch : string)
    (w : world) :
  let run := get_remote_repo E localdir remote branch w in
  fst run
  = match fs w !! localdir with
    | Some false => NULL
    | Some true =>
        match repos w !! localdir with
        | Some _ => Repo localdir
        | None => NULL
        end
    | None =>
        match cloned E remote branch with
        | Some _ => Repo localdir
        | None => NULL
        end
    end
  /\ (fs w !! localdir = Some false ->
      exists msg, run = (NULL, add_report msg w)).
Proof.
  cbv zeta. unfold get_remote_repo.
  rewrite bind_run, stat_run. cbn [fst snd].
  destruct (fs w !! localdir) as [[|]|]; cbn [negb].
  - split; [apply update_local_repo_handle | discriminate].
  - rewrite bind_run, report_error_run, ret_run. cbn [fst snd].
    split; [reflexivity | intros _; eexists; reflexivity].
  - split; [apply create_local_repo_handle | discriminate].
Qed.

(** X2.  A cache is cloned once and reused: after a clone that succeeds,
    the cache path is a directory holding the cloned repository, nothing
    was reported, and another [get_remote_repo] on the same path takes the
    update path and returns the same handle. *)
Theorem clone_then_reuse (E : backend) (localdir remote branch : string)
    (g : git_repository) (w : world) :
  fs w !! localdir = None ->
  cloned E remote branch = Some g ->
  let run := get_remote_repo E localdir remote branch w in
  fst run = Repo localdir
  /\ fs (snd run) !! localdir = Some true
  /\ repos (snd run) !! localdir = Some g
  /\ reports (snd run) = reports w
  /\ get_remote_repo E localdir remote branch (snd run)
     = update_local_repo E localdir remote branch (snd run)
  /\ fst (get_remote_repo E localdir remote branch (snd run)) = Repo localdir.
Proof.
  intros Hfs Hclone. cbv zeta.
  assert (Hrun : get_remote_repo E localdir remote branch w
                 = let asked := acquire_cred E
                                  (credentials_for E (remote_type_of remote))
                                  remote w in
                   (Repo localdir,
                    set_disk (<[localdir := true]> (fs (snd asked)))
                      (<[localdir := g]> (repos (snd asked)))
                      (add_call (call_clone remote localdir branch (fst asked))
                         (snd asked)))).
  { unfold get_remote_repo. rewrite bind_run, stat_run. cbn [fst snd].
    rewrite Hfs. unfold create_local_repo, git_clone.
    rewrite !bind_run, trace_run. cbn [fst snd]. rewrite Hclone.
    rewrite bind_run, modify_run, !ret_run. reflexivity. }
  rewrite Hrun. cbv zeta. cbn [fst snd].
  destruct (acquire_cred_frame E (remote_type_of remote) remote w)
    as (_ & _ & _ & Hrep & _).
  set (w1 := set_disk _ _ _).
  assert (F : fs w1 !! localdir = Some true) by apply lookup_insert_eq.
  assert (R : repos w1 !! localdir = Some g) by apply lookup_insert_eq.
  assert (Hupd : get_remote_repo E localdir remote branch w1
                 = update_local_repo E localdir remote branch w1).
  { unfold get_remote_repo. rewrite bind_run, stat_run. cbn [fst snd].
    now rewrite F. }
  splits; try assumption; try reflexivity.
  rewrite Hupd, update_local_repo_handle, R. reflexivity.
Qed.

Lemma clone_then_reuse_witness :
  fst (get_remote_repo Samples.willing "cache" "git://example.com/repo" "main"
         (snd (get_remote_repo Samples.willing "cache"
                 "git://example.com/repo" "main" Samples.empty_world)))
  = Repo "cache".
Proof.
  exact (proj2 (proj2 (proj2 (proj2 (proj2
    (clone_then_reuse Samples.willing "cache" "git://example.com/repo" "main"
       no_repository Samples.empty_world eq_refl eq_refl)))))).
Defined.

(** ** A repository on the local disk *)

(** X3.  A locator whose path is not a remote one is opened in place: when
    both allocations succeed, [is_git_repository] returns the repository
    at the path, with the branch text, if the path is a directory that
    holds one, and the dummy with the whole name otherwise; it contacts no
    backend, reports nothing and leaves preferences and disk alone. *)
Theorem is_git_repository_local (E : backend) (filename loc branch : string)
    (w : world) :
  parse_locator filename = Some (loc, branch) ->
  looks_remote loc = false ->
  alloc_ok E (allocs w) = true ->
  alloc_ok E (S (allocs w)) = true ->
  is_git_repository E filename w
  = (match fs w !! loc, repos w !! loc with
     | Some true, Some _ => (Repo loc, Some branch)
     | _, _ => (dummy_git_repository, Some filename)
     end, add_alloc (add_alloc w)).
Proof.
  unfold parse_locator. intros Hshape Hlocal A1 A2.
  destruct (locator_shape filename) as [[[flen blen] offset]|] eqn:Hs;
    [| discriminate].
  remember (str_take flen filename) as loc' eqn:Hloc.
  remember (str_take blen (str_drop (flen + offset) filename)) as branch'
    eqn:Hbranch.
  injection Hshape as -> ->.
  unfold is_git_repository. rewrite Hs, <- Hloc, <- Hbranch.
  rewrite bind_run, format_string_run, A1. cbn [fst snd].
  rewrite bind_run, format_string_run. cbn [fst snd].
  change (allocs (add_alloc w)) with (S (allocs w)). rewrite A2.
  rewrite bind_run. unfold is_remote_git_repository at 1 2.
  rewrite Hlocal. cbn [negb]. rewrite ret_run. cbn [fst snd].
  rewrite (bind_run (stat loc)), stat_run. cbn [fst snd].
  change (fs (add_alloc (add_alloc w))) with (fs w).
  destruct (fs w !! loc) as [[|]|]; try reflexivity.
  rewrite (bind_run (git_repository_open loc)), git_repository_open_run.
  cbn [fst snd]. change (repos (add_alloc (add_alloc w))) with (repos w).
  now destruct (repos w !! loc).
Qed.

Lemma is_git_repository_local_witness :
  is_git_repository Samples.willing "a///[dives]" Samples.local_world
  = ((Repo "a", Some "dives"), add_alloc (add_alloc Samples.local_world)).
Proof.
  exact (is_git_repository_local Samples.willing "a///[dives]" "a" "dives"
           Samples.local_world eq_refl eq_refl eq_refl eq_refl).
Defined.

(** ** Resolving the branch and its upstream *)

Lemma lookup_reference_run (repo name : string) (w : world) :
  lookup_reference repo name w
  = (match repo_refs (repo_at repo w) !! name with
     | Some t => Some {| ref_owner := repo; ref_name := name;
                         ref_points_at := t |}
     | None => None
     end, w).
Proof. reflexivity. Qed.

Lemma git_reference_cmp_same (r1 r2 : git_reference) :
  ref_points_at r1 = ref_points_at r2 -> git_reference_cmp r1 r2 = 0.
Proof.
  unfold git_reference_cmp. intros <-.
  destruct (ref_points_at r1); [now rewrite N.eqb_refl |].
  now rewrite String.eqb_refl.
Qed.

(** X4.  When the branch and its upstream reference point at the same
    target, [check_remote_status] is a no-op: the world is exactly as
    before, with no report and no backend operation, not even the status
    walk. *)
Theorem check_remote_status_up_to_date (E : backend) (repo : string)
    (origin : git_remote) (branch up : string) (rt : remote_type)
    (t : ref_target) (w : world) :
  repo_refs (repo_at repo w) !! ("refs/heads/" +:+ branch) = Some t ->
  repo_upstream (repo_at repo w) !! ("refs/heads/" +:+ branch) = Some up ->
  repo_refs (repo_at repo w) !! up = Some t ->
  check_remote_status E repo origin branch rt w = (tt, w).
Proof.
  intros Hlocal Hup Hremote. unfold check_remote_status, git_branch_lookup.
  rewrite bind_run, lookup_reference_run, Hlocal. cbn [fst snd].
  unfold git_branch_upstream.
  rewrite bind_run, bind_run, gets_run. cbn [fst snd ref_owner ref_name].
  rewrite Hup, lookup_reference_run, Hremote. cbn [fst snd].
  rewrite bind_run. unfold try_to_update.
  rewrite git_reference_cmp_same by reflexivity. reflexivity.
Qed.

Lemma check_remote_status_up_to_date_witness :
  check_remote_status Samples.willing "cache" Samples.origin "master" HTTPS
    Samples.synced_world
  = (tt, Samples.synced_world).
Proof.
  exact (check_remote_status_up_to_date Samples.willing "cache" Samples.origin
           "master" Samples.origin_master HTTPS (OidTarget 1%N)
           Samples.synced_world eq_refl eq_refl eq_refl).
Defined.

(** X5.  When the branch is gone, or has no upstream reference left,
    [check_remote_status] only reports which branch it is: no backend
    operation is traced and nothing on disk changes. *)
Theorem check_remote_status_unresolved (E : backend) (repo : string)
    (origin : git_remote) (branch : string) (rt : remote_type) (w : world) :
  let name := "refs/heads/" +:+ branch in
  let refs := repo_refs (repo_at repo w) in
  (refs !! name = None \/
   (is_Some (refs !! name) /\
    match repo_upstream (repo_at repo w) !! name with
    | Some up => refs !! up = None
    | None => True
    end)) ->
  check_remote_status E repo origin branch rt w
  = (tt, add_report
           (match refs !! name with
            | Some _ => "Git cache branch " +:+ branch
                          +:+ " no longer has an upstream branch"
            | None => "Git cache branch " +:+ branch +:+ " no longer exists"
            end) w).
Proof.
  cbv zeta. intros H. unfold check_remote_status, git_branch_lookup.
  rewrite bind_run, lookup_reference_run. cbn [fst snd].
  destruct H as [Hnone | [[t Ht] Hup]].
  - rewrite Hnone. rewrite bind_run, report_error_run, ret_run. reflexivity.
  - rewrite Ht in *. unfold git_branch_upstream.
    rewrite bind_run, bind_run, gets_run. cbn [fst snd ref_owner ref_name].
    destruct (repo_upstream (repo_at repo w) !! ("refs/heads/" +:+ branch))
      as [up|].
    + rewrite lookup_reference_run, Hup. cbn [fst snd].
      rewrite bind_run, report_error_run, ret_run. reflexivity.
    + rewrite ret_run. cbn [fst snd].
      rewrite bind_run, report_error_run, ret_run. reflexivity.
Qed.

Lemma check_remote_status_unresolved_witness :
  check_remote_status Samples.willing "cache" Samples.origin "topic" HTTPS
    (Samples.cache_world false [])
  = (tt, add_report "Git cache branch topic no longer exists"
           (Samples.cache_world false [])).
Proof.
  exact (check_remote_status_unresolved Samples.willing "cache" Samples.origin
           "topic" HTTPS (Samples.cache_world false [])
           (or_introl eq_refl)).
Defined.

(** ** What the engine may touch *)

Lemma reset_to_remote_frame (E : backend) (repo : string)
    (local : git_reference) (id : git_oid) (w : world) :
  let w' := snd (reset_to_remote E repo local id w) in
  prefs w' = prefs w /\ fs w' = fs w.
Proof.
  cbv zeta. unfold reset_to_remote.
  rewrite bind_run, git_repository_is_bare_run. cbn [fst snd].
  rewrite bind_run, git_branch_is_head_run. cbn [fst snd].
  destruct (repo_is_bare (repo_at repo w)
            || negb ((if checked_out local w then 1 else 0) =? 1)).
  - rewrite bind_run, git_reference_set_target_run. cbv zeta.
    destruct (set_target_ok E (ref_owner local) (ref_name local) id);
      cbn [fst snd negb Z.eqb];
      rewrite ?bind_run, ?report_error_run, ?ret_run; now split.
  - rewrite bind_run, git_object_lookup_run. cbn [fst snd].
    destruct (lookup_ok E repo id); cbn [fst snd negb Z.eqb];
      [| rewrite report_error_run; now split].
    rewrite bind_run, git_reset_run. cbv zeta.
    destruct (hard_reset_ok E repo id); cbn [fst snd negb Z.eqb];
      rewrite ?bind_run, ?report_error_run, ?ret_run; now split.
Qed.

(** The run of [try_to_update] once the references differ and the walk
    found the tree clean. *)
Lemma try_to_update_clean_run (E : backend) (repo : string)
    (origin : git_remote) (local remote : git_reference) (rt : remote_type)
    (w : world) :
  (git_reference_cmp local remote =? 0) = false ->
  tree_clean repo w ->
  try_to_update E repo origin local remote rt w
  = let w0 := add_call (call_status_foreach repo) w in
    match git_reference_target local, git_reference_target remote with
    | Some local_id, Some remote_id =>
        let w1 := add_call (call_merge_base repo local_id remote_id) w0 in
        match merge_base_of E repo local_id remote_id with
        | None =>
            (-1, add_report
                   "Unable to find common commit of local and remote branches"
                   w1)
        | Some base =>
            if git_oid_equal base local_id then
              reset_to_remote E repo local remote_id w1
            else if git_oid_equal base remote_id then
              update_remote E repo origin local remote rt w1
            else
              (-1, add_report
                     (diverged_report (repo_is_bare (repo_at repo w))
                        (checked_out local w)) w1)
        end
    | _, _ => (-1, add_report "Unable to get local or remote SHA1" w0)
    end.
Proof.
  intros Hcmp Hclean. unfold try_to_update. rewrite Hcmp.
  rewrite bind_run, (git_status_foreach_clean _ _ Hclean).
  cbn [fst snd negb Z.eqb]. cbv zeta.
  destruct (git_reference_target local) as [local_id|]; [| reflexivity].
  destruct (git_reference_target remote) as [remote_id|]; [| reflexivity].
  rewrite bind_run, git_merge_base_run. cbn [fst snd].
  destruct (merge_base_of E repo local_id remote_id) as [base|];
    [| reflexivity].
  destruct (git_oid_equal base local_id); [reflexivity |].
  destruct (git_oid_equal base remote_id); [reflexivity |].
  rewrite bind_run, git_repository_is_bare_run. cbn [fst snd].
  unfold diverged_report.
  match goal with |- context [repo_is_bare (repo_at repo ?x)] =>
    change (repo_at repo x) with (repo_at repo w) end.
  destruct (repo_is_bare (repo_at repo w)); [reflexivity |].
  rewrite bind_run, git_branch_is_head_run. cbn [fst snd].
  match goal with |- context [checked_out local ?x] =>
    change (checked_out local x) with (checked_out local w) end.
  now destruct (checked_out local w).
Qed.

Lemma reference_cmp_differs (local remote : git_reference)
    (local_id remote_id : git_oid) :
  (git_reference_cmp local remote =? 0) = false ->
  git_reference_target local = Some local_id ->
  git_reference_target remote = Some remote_id ->
  local_id <> remote_id.
Proof.
  unfold git_reference_cmp, git_reference_target.
  destruct (ref_points_at local), (ref_points_at remote); try discriminate.
  intros H [= ->] [= ->] ->. now rewrite N.eqb_refl in H.
Qed.

(** A fast-forward the backend refuses moves nothing: whenever
    [reset_to_remote] returns an error, the repositories are as before. *)
Lemma reset_to_remote_refused (E : backend) (repo : string)
    (local : git_reference) (id : git_oid) (w : world) :
  let run := reset_to_remote E repo local id w in
  (fst run = 0 \/ fst run = -1)
  /\ (fst run <> 0 -> repos (snd run) = repos w).
Proof.
  cbv zeta. unfold reset_to_remote.
  rewrite bind_run, git_repository_is_bare_run. cbn [fst snd].
  rewrite bind_run, git_branch_is_head_run. cbn [fst snd].
  destruct (repo_is_bare (repo_at repo w)
            || negb ((if checked_out local w then 1 else 0) =? 1)).
  - rewrite bind_run, git_reference_set_target_run. cbv zeta.
    destruct (set_target_ok E (ref_owner local) (ref_name local) id);
      cbn [fst snd negb Z.eqb];
      rewrite ?bind_run, ?report_error_run, ?ret_run; cbn [fst snd];
      split; auto; intros H; now try destruct H.
  - rewrite bind_run, git_object_lookup_run. cbn [fst snd].
    destruct (lookup_ok E repo id); cbn [fst snd negb Z.eqb];
      [| rewrite report_error_run; cbn [fst snd]; split; auto].
    rewrite bind_run, git_reset_run. cbv zeta.
    destruct (hard_reset_ok E repo id); cbn [fst snd negb Z.eqb];
      rewrite ?bind_run, ?report_error_run, ?ret_run; cbn [fst snd];
      split; auto; intros H; now try destruct H.
Qed.

(** X6.  [try_to_update] never touches the preferences or the file
    system, and it changes the repositories only on a fast-forward that
    the backend carries out: when they differ afterwards, the two
    references are at different commits, the status walk found the tree
    clean, the merge base is the local commit and the result is 0.  Every
    run that returns an error leaves the repositories as they were, a
    refused fast-forward included; so does a dirty tree, and so does every
    merge base other than the local commit (a local branch that is ahead,
    diverged histories). *)
Theorem try_to_update_mutates_only_on_fast_forward (E : backend)
    (repo : string) (origin : git_remote) (local remote : git_reference)
    (rt : remote_type) (w : world) :
  let run := try_to_update E repo origin local remote rt w in
  prefs (snd run) = prefs w
  /\ fs (snd run) = fs w
  /\ (repos (snd run) <> repos w ->
      exists local_id remote_id,
        git_reference_target local = Some local_id
        /\ git_reference_target remote = Some remote_id
        /\ local_id <> remote_id
        /\ tree_clean repo w
        /\ merge_base_of E repo local_id remote_id = Some local_id
        /\ fst run = 0)
  /\ (fst run <> 0 -> repos (snd run) = repos w)
  /\ (tree_dirty repo w -> repos (snd run) = repos w)
  /\ (forall local_id remote_id,
         git_reference_target local = Some local_id ->
         git_reference_target remote = Some remote_id ->
         merge_base_of E repo local_id remote_id <> Some local_id ->
         repos (snd run) = repos w).
Proof.
  cbv zeta.
  destruct (git_reference_cmp local remote =? 0) eqn:Hcmp.
  { unfold try_to_update. rewrite Hcmp. cbn. splits; try reflexivity.
    intros H. now destruct H. }
  destruct (Z.eq_dec (fst (git_status_foreach repo check_clean w)) 0)
    as [Hclean | Hdirty].
  2: { unfold try_to_update. rewrite Hcmp, bind_run.
       apply Z.eqb_neq in Hdirty. rewrite Hdirty. cbn [negb].
       rewrite report_error_run. cbn [fst snd].
       destruct (git_status_foreach_frame repo w) as (H1 & H2 & H3 & _).
       splits; try assumption; try (intros; assumption).
       intros H. now destruct H. }
  rewrite (try_to_update_clean_run E repo origin local remote rt w Hcmp Hclean).
  cbv zeta.
  destruct (git_reference_target local) as [local_id|] eqn:Hl;
    [| splits; try reflexivity; try (intros; reflexivity);
       intros H; now destruct H].
  destruct (git_reference_target remote) as [remote_id|] eqn:Hr;
    [| splits; try reflexivity; try (intros; reflexivity);
       intros H; now destruct H].
  destruct (merge_base_of E repo local_id remote_id) as [base|] eqn:Hbase;
    [| splits; try reflexivity; try (intros; reflexivity);
       intros H; now destruct H].
  unfold git_oid_equal.
  destruct (N.eqb base local_id) eqn:Hbl.
  { apply N.eqb_eq in Hbl. subst base.
    set (w1 := add_call _ (add_call _ w)).
    destruct (reset_to_remote_frame E repo local remote_id w1) as [H1 H2].
    destruct (reset_to_remote_refused E repo local remote_id w1) as [_ H3].
    splits; [exact H1 | exact H2 | | exact H3 | |].
    - intros Hmoved. exists local_id, remote_id.
      splits; try assumption; auto.
      + exact (reference_cmp_differs _ _ _ _ Hcmp Hl Hr).
      + destruct (Z.eq_dec (fst (reset_to_remote E repo local remote_id w1)) 0)
          as [Hrc | Hrc]; [exact Hrc | now destruct Hmoved; apply H3].
    - intros Hd. now destruct Hd.
    - intros l r [= <-] [= <-] Hno. now destruct Hno. }
  destruct (N.eqb base remote_id).
  { set (w1 := add_call _ (add_call _ w)).
    unfold update_remote.
    rewrite bind_run, git_remote_push_run. cbv zeta. cbn [fst snd].
    destruct (acquire_cred_frame E rt (remote_url origin) w1)
      as (H1 & H2 & H3 & _).
    destruct (push_ok E (remote_owner origin) (git_reference_name local));
      cbn [fst snd negb Z.eqb];
      rewrite ?bind_run, ?report_error_run, ?ret_run; cbn [fst snd];
      (splits; [exact H1 | exact H2 | intros H; now destruct H
               | intros; exact H3 | intros; exact H3 | intros; exact H3]). }
  splits; try reflexivity; try (intros; reflexivity).
  intros H. now destruct H.
Qed.

Lemma try_to_update_mutates_only_on_fast_forward_witness :
  let w := Samples.cache_world true [] in
  let run := try_to_update Samples.refusing "cache" Samples.origin
               Samples.local_master Samples.remote_master OTHER w in
  fst run = -1 /\ repos (snd run) = repos w.
Proof.
  cbv zeta. split; [reflexivity |].
  refine (proj1 (proj2 (proj2 (proj2
            (try_to_update_mutates_only_on_fast_forward Samples.refusing
               "cache" Samples.origin Samples.local_master
               Samples.remote_master OTHER (Samples.cache_world true [])))))
            _).
  vm_compute. discriminate.
Defined.

Lemma status_entries_first_flagged (quiet rest : list (string * Z))
    (path : string) (flags : Z) (w : world) :
  Forall (fun e => snd e = 0) quiet ->
  0 < flags < 2 ^ 32 ->
  status_entries check_clean (quiet ++ (path, flags) :: rest) w
  = (1, add_report (dirty_warning path) w).
Proof.
  intros Hq Hf. induction Hq as [|[p f] quiet Hz _ IH]; simpl.
  - rewrite bind_run, check_clean_run by lia.
    replace (flags =? 0) with false by (symmetry; apply Z.eqb_neq; lia).
    reflexivity.
  - simpl in Hz. subst f. rewrite bind_run, check_clean_run by lia.
    exact IH.
Qed.

(** X7.  On a dirty tree the update stops at the first entry with a flag:
    [try_to_update] reports a warning that names this one path, whatever
    else is modified after it, then the skipped update, and returns the
    error code; the status walk is the only backend operation. *)
Theorem try_to_update_reports_first_dirty_path (E : backend) (repo : string)
    (origin : git_remote) (local remote : git_reference) (rt : remote_type)
    (w : world) (local_id remote_id : git_oid)
    (quiet rest : list (string * Z)) (path : string) (flags : Z) :
  git_reference_target local = Some local_id ->
  git_reference_target remote = Some remote_id ->
  local_id <> remote_id ->
  repo_status (repo_at repo w) = quiet ++ (path, flags) :: rest ->
  Forall (fun e => snd e = 0) quiet ->
  0 < flags < 2 ^ 32 ->
  try_to_update E repo origin local remote rt w
  = (-1, add_report "local cached copy is dirty, skipping update"
           (add_report (dirty_warning path)
              (add_call (call_status_foreach repo) w))).
Proof.
  intros Hl Hr Hne Hst Hq Hf. unfold try_to_update.
  rewrite (reference_cmp_oids _ _ _ _ Hl Hr Hne).
  rewrite bind_run, git_status_foreach_run, Hst.
  rewrite (status_entries_first_flagged _ _ _ _ _ Hq Hf). reflexivity.
Qed.

Lemma try_to_update_reports_first_dirty_path_witness :
  reports (snd (try_to_update Samples.willing "cache" Samples.origin
                  Samples.local_master Samples.remote_master OTHER
                  (Samples.cache_world false
                     [("notes.txt", 0); ("dive.xml", GIT_STATUS_WT_MODIFIED);
                      ("trip.xml", GIT_STATUS_WT_DELETED)])))
  = [dirty_warning "dive.xml"; "local cached copy is dirty, skipping update"].
Proof.
  exact (f_equal (fun r => reports (snd r))
    (try_to_update_reports_first_dirty_path Samples.willing "cache"
       Samples.origin Samples.local_master Samples.remote_master OTHER
       (Samples.cache_world false
          [("notes.txt", 0); ("dive.xml", GIT_STATUS_WT_MODIFIED);
           ("trip.xml", GIT_STATUS_WT_DELETED)])
       1%N 2%N [("notes.txt", 0)] [("trip.xml", GIT_STATUS_WT_DELETED)]
       "dive.xml" GIT_STATUS_WT_MODIFIED eq_refl eq_refl ltac:(discriminate)
       eq_refl ltac:(repeat constructor) (conj eq_refl eq_refl))).
Defined.

(** X8.  When the local branch is strictly ahead on a clean tree, the
    branch is pushed under its own name with the credentials of the
    remote's scheme and nothing else is asked of the backend; the
    repositories stay as they were whether the push succeeds or not, and a
    failed push is reported with the backend's message and returned as an
    error. *)
Theorem try_to_update_pushes_local (E : backend) (repo : string)
    (origin : git_remote) (local remote : git_reference) (rt : remote_type)
    (w : world) (local_id remote_id : git_oid) :
  git_reference_target local = Some local_id ->
  git_reference_target remote = Some remote_id ->
  local_id <> remote_id ->
  tree_clean repo w ->
  merge_base_of E repo local_id remote_id = Some remote_id ->
  let run := try_to_update E repo origin local remote rt w in
  let asked := acquire_cred E (credentials_for E rt) (remote_url origin) w in
  let pushed := push_ok E (remote_owner origin) (ref_name local) in
  fst run = (if pushed then 0 else -1)
  /\ calls (snd run)
     = calls w
         ++ [call_status_foreach repo;
             call_merge_base repo local_id remote_id;
             call_remote_push (remote_owner origin) (ref_name local)
               (fst asked)]
  /\ reports (snd run)
     = reports w
         ++ [if pushed then "Local cache more recent than remote"
             else "Unable to update remote with current local cache state ("
                    +:+ last_error E +:+ ")"]
  /\ repos (snd run) = repos w
  /\ prefs (snd run) = prefs w.
Proof.
  intros Hl Hr Hne Hclean Hbase. cbv zeta.
  rewrite (try_to_update_clean_run E repo origin local remote rt w
             (reference_cmp_oids _ _ _ _ Hl Hr Hne) Hclean).
  cbv zeta. rewrite Hl, Hr, Hbase. unfold git_oid_equal.
  apply not_eq_sym in Hne. apply N.eqb_neq in Hne.
  rewrite Hne, N.eqb_refl.
  set (w1 := add_call _ (add_call _ w)).
  destruct (update_remote_outcome E repo origin local remote rt w1)
    as (Hc & Hrc & Hrepos & Hrep).
  destruct (acquire_cred_frame E rt (remote_url origin) w1)
    as (F1 & _ & F3 & F4 & F5).
  assert (Hasked : fst (acquire_cred E (credentials_for E rt)
                          (remote_url origin) w1)
                   = fst (acquire_cred E (credentials_for E rt)
                            (remote_url origin) w)).
  { unfold credentials_for.
    destruct (USE_LIBGIT23_API E); [destruct rt |]; reflexivity. }
  splits.
  - exact Hrc.
  - rewrite Hc, F5, Hasked. unfold w1. cbn [calls add_call].
    now rewrite <- !app_assoc.
  - rewrite Hrep, F4. reflexivity.
  - rewrite Hrepos, F3. reflexivity.
  - unfold update_remote.
    rewrite bind_run, git_remote_push_run. cbv zeta. cbn [fst snd].
    destruct (push_ok E (remote_owner origin) (git_reference_name local));
      cbn [fst snd negb Z.eqb];
      rewrite ?bind_run, ?report_error_run, ?ret_run; cbn [fst snd];
      exact F1.
Qed.

Lemma try_to_update_pushes_local_witness :
  let run := try_to_update Samples.offline "cache" Samples.origin
               Samples.local_master Samples.remote_master OTHER
               (Samples.cache_world false []) in
  fst run = -1 /\ repos (snd run) = repos (Samples.cache_world false []).
Proof.
  pose proof (try_to_update_pushes_local Samples.offline "cache"
                Samples.origin Samples.local_master Samples.remote_master
                OTHER (Samples.cache_world false []) 1%N 2%N
                eq_refl eq_refl ltac:(discriminate) eq_refl eq_refl) as H.
  exact (conj (proj1 H) (proj1 (proj2 (proj2 (proj2 H))))).
Defined.

(** ** Remote errors are not fatal *)

(** X9.  With the cache repository open and no proxy to set,
    [update_local_repo] still returns the repository when the remote
    cannot be used: without an origin it reports the failed lookup and
    does nothing else; when the fetch fails it reports that, and neither
    looks at the branch nor starts the status walk, so the repositories
    are as before. *)
Theorem update_local_repo_remote_errors (E : backend)
    (localdir remote branch : string) (g : git_repository) (w : world) :
  repos w !! localdir = Some g ->
  remote_type_of remote <> HTTPS \/ proxy_string E = None ->
  let run := update_local_repo E localdir remote branch w in
  (repo_remotes g !! "origin" = None ->
   run = (Repo localdir,
          add_report ("Repository '" +:+ remote +:+ "' origin lookup failed ("
                        +:+ last_error E +:+ ")") w))
  /\ (forall url,
         repo_remotes g !! "origin" = Some url ->
         fetched E localdir = None ->
         let asked := acquire_cred E
                        (credentials_for E (remote_type_of remote)) url w in
         run = (Repo localdir,
                add_report ("Unable to fetch remote '" +:+ remote +:+ "'")
                  (add_call (call_remote_fetch localdir url (fst asked))
                     (snd asked)))).
Proof.
  intros Hrepo Hproxy. cbv zeta.
  assert (Hrun : update_local_repo E localdir remote branch w
    = match repo_remotes g !! "origin" with
      | None =>
          (Repo localdir,
           add_report ("Repository '" +:+ remote +:+ "' origin lookup failed ("
                         +:+ last_error E +:+ ")") w)
      | Some url =>
          let origin := {| remote_owner := localdir; remote_name := "origin";
                           remote_url := url |} in
          let fetch := git_remote_fetch E origin
                         (credentials_for E (remote_type_of remote)) w in
          let synced :=
            (if negb (fst fetch =? 0) then
               report_error ("Unable to fetch remote '" +:+ remote +:+ "'");;
               ret tt
             else check_remote_status E localdir origin branch
                    (remote_type_of remote)) (snd fetch) in
          (Repo localdir, snd synced)
      end).
  { unfold update_local_repo.
    rewrite bind_run, git_repository_open_run, Hrepo. cbn [fst snd]. cbv zeta.
    rewrite bind_run.
    replace (match remote_type_of remote with
             | HTTPS =>
                 match proxy_string E with
                 | Some proxy =>
                     git_config_set_string localdir "http.proxy" proxy
                 | None => ret tt
                 end
             | _ => ret tt
             end) with (ret tt : M unit)
      by (destruct Hproxy as [H | ->];
          [destruct (remote_type_of remote); [| now destruct H |]
          | destruct (remote_type_of remote)]; reflexivity).
    rewrite ret_run. cbn [fst snd].
    rewrite bind_run. unfold git_remote_lookup at 1 2. rewrite gets_run.
    cbn [fst snd]. unfold repo_at. rewrite Hrepo.
    change (default no_repository (Some g)) with g.
    destruct (repo_remotes g !! "origin") as [url|].
    - rewrite bind_run. cbv beta. rewrite bind_run, ret_run. reflexivity.
    - rewrite bind_run, report_error_run, ret_run. reflexivity. }
  rewrite Hrun. split.
  - now intros ->.
  - intros url -> Hfetch. cbv zeta. unfold git_remote_fetch.
    rewrite !bind_run, trace_run. cbn [fst snd remote_owner remote_url].
    rewrite Hfetch, ret_run. cbn [fst snd negb Z.eqb].
    rewrite bind_run, report_error_run, ret_run. reflexivity.
Qed.

Lemma update_local_repo_remote_errors_witness :
  reports (snd (update_local_repo Samples.offline "cache"
                  "https://example.com/repo" "master"
                  (Samples.cache_world false [])))
  = ["Unable to fetch remote 'https://example.com/repo'"].
Proof.
  pose proof (update_local_repo_remote_errors Samples.offline "cache"
                "https://example.com/repo" "master"
                (Samples.cache_repo false []) (Samples.cache_world false [])
                eq_refl (or_intror eq_refl)) as H.
  exact (f_equal (fun r => reports (snd r))
           (proj2 H "https://example.com/repo" eq_refl eq_refl)).
Defined.

(** ** Credentials by scheme *)

Lemma traced_since_start (good : backend_call -> Prop) (w : world) :
  traced_since (calls w) good w.
Proof. exists []. split; [now rewrite app_nil_r | constructor]. Qed.

Lemma traced_since_call (base : list backend_call)
    (good : backend_call -> Prop) (c : backend_call) (w : world) :
  traced_since base good w -> good c -> traced_since base good (add_call c w).
Proof.
  intros (new & Hc & Hall) Hgood. exists (new ++ [c]). split.
  - cbn. now rewrite Hc, app_assoc.
  - apply Forall_app. split; [exact Hall | now repeat constructor].
Qed.

(** X10.  A remote that is neither ssh nor https, and any remote in a
    build without the credential callbacks, is never given credentials:
    every fetch, push and clone that [get_remote_repo] makes carries
    none. *)
Theorem get_remote_repo_without_credentials (E : backend)
    (localdir remote branch : string) (w : world) :
  USE_LIBGIT23_API E = false \/ remote_type_of remote = OTHER ->
  traced_since (calls w) uncredentialed
    (snd (get_remote_repo E localdir remote branch w)).
Proof.
  intros Hnone.
  assert (Hcb : credentials_for E (remote_type_of remote) = None).
  { unfold credentials_for. destruct Hnone as [-> | ->]; [reflexivity |].
    now destruct (USE_LIBGIT23_API E). }
  assert (H : ensures (traced_since (calls w) uncredentialed) not_dummy
                (get_remote_repo E localdir remote branch)).
  { apply ensures_get_remote_repo; auto.
    - intros c w0 Hw0 Hc. apply traced_since_call; [exact Hw0 |].
      intros cred Hcred. rewrite Hc in Hcred. discriminate.
    - intros c url w0 Hw0. rewrite Hcb. cbn [acquire_cred].
      rewrite ret_run. cbn [fst snd]. intros Hc.
      apply traced_since_call; [exact Hw0 |].
      intros cred Hcred. rewrite Hc in Hcred. now injection Hcred as <-. }
  exact (proj1 (H w (traced_since_start _ w))).
Qed.

Lemma get_remote_repo_without_credentials_witness :
  traced_since (calls Samples.empty_world) uncredentialed
    (snd (get_remote_repo Samples.willing "cache" "git://example.com/repo"
            "main" Samples.empty_world)).
Proof.
  exact (get_remote_repo_without_credentials Samples.willing "cache"
           "git://example.com/repo" "main" Samples.empty_world
           (or_intror eq_refl)).
Defined.

Lemma credential_ssh_cb_run (E : backend) (url : string)
    (user : option string) (w : world) :
  credential_ssh_cb E url user w
  = (cred_ssh_key user None
       (if alloc_ok E (allocs w)
        then Some (default_directory E +:+ "/ssrf_remote.key") else None)
       (default "" (cloud_storage_password (prefs w))),
     add_alloc w).
Proof.
  unfold credential_ssh_cb, password_or_empty, system_default_directory.
  rewrite bind_run, format_string_run. cbn [fst snd].
  rewrite bind_run, gets_run, ret_run. cbn [fst snd prefs add_alloc].
  now destruct (cloud_storage_password (prefs w)), (alloc_ok E (allocs w)).
Qed.

(** X11.  For an ssh remote, every fetch, push and clone that
    [get_remote_repo] makes is given an ssh key: no public key, the
    private key file [ssrf_remote.key] under the cache root, and the
    stored password, or the empty string when none is stored, as
    passphrase; the preferences are left as they were. *)
Theorem get_remote_repo_ssh_key (E : backend)
    (localdir remote branch : string) (w : world) :
  USE_LIBGIT23_API E = true ->
  remote_type_of remote = SSH ->
  let w' := snd (get_remote_repo E localdir remote branch w) in
  prefs w' = prefs w
  /\ traced_since (calls w)
       (ssh_keyed E (cloud_storage_password (prefs w))) w'.
Proof.
  intros Hapi Hrt. cbv zeta.
  set (pw := cloud_storage_password (prefs w)).
  set (I := fun w' => prefs w' = prefs w
                      /\ traced_since (calls w) (ssh_keyed E pw) w').
  assert (Hcb : credentials_for E (remote_type_of remote)
                = Some (credential_ssh_cb E)).
  { unfold credentials_for. now rewrite Hapi, Hrt. }
  assert (H : ensures I not_dummy (get_remote_repo E localdir remote branch)).
  { apply ensures_get_remote_repo;
      try solve [intros; match goal with H : I _ |- _ => exact H end].
    - intros c w0 [Hp Ht] Hc. split; [exact Hp |].
      apply traced_since_call; [exact Ht |].
      intros cred Hcred. rewrite Hc in Hcred. discriminate.
    - intros c url w0 [Hp Ht]. rewrite Hcb. cbn [acquire_cred].
      rewrite bind_run, credential_ssh_cb_run, ret_run. cbn [fst snd].
      intros Hc. split; [exact Hp |].
      apply (traced_since_call _ _ c (add_alloc w0)); [exact Ht |].
      intros cred Hcred. rewrite Hc in Hcred. injection Hcred as <-.
      rewrite Hp. fold pw. eexists _, _. split; [reflexivity |].
      destruct (alloc_ok E (allocs w0)); [now right | now left]. }
  exact (proj1 (H w (conj eq_refl (traced_since_start _ w)))).
Qed.

Lemma get_remote_repo_ssh_key_witness :
  traced_since (calls Samples.empty_world) (ssh_keyed Samples.willing None)
    (snd (get_remote_repo Samples.willing "cache" "ssh://git@example.com/repo"
            "main" Samples.empty_world)).
Proof.
  exact (proj2 (get_remote_repo_ssh_key Samples.willing "cache"
                  "ssh://git@example.com/repo" "main" Samples.empty_world
                  eq_refl eq_refl)).
Defined.

(** ** Locators once more *)

(** X12.  Parsing normalises: the path of an accepted locator is not
    empty and does not end in a separator, and the locator written from
    the parsed parts, path then bracketed branch, parses into the same
    path and branch. *)
Theorem parse_locator_normal_form (filename loc branch : string) :
  parse_locator filename = Some (loc, branch) ->
  loc <> ""
  /\ char_at loc (String.length loc - 1) <> "/"%char
  /\ parse_locator (loc +:+ "[" +:+ branch +:+ "]") = Some (loc, branch).
Proof.
  intros H.
  destruct (parse_locator_inv _ _ _ H) as (k & _ & Hne & Hlast & Hno).
  splits; [exact Hne | exact Hlast |].
  exact (parse_locator_shaped loc branch 0 Hne Hlast Hno).
Qed.

Lemma parse_locator_normal_form_witness :
  parse_locator ("/a/b/c" +:+ "[" +:+ "mybranch" +:+ "]")
  = Some ("/a/b/c", "mybranch").
Proof.
  exact (proj2 (proj2 (parse_locator_normal_form "/a/b/c///[mybranch]"
                         "/a/b/c" "mybranch" eq_refl))).
Defined.

(** X13.  A [file://] locator is cached and cloned by the path behind the
    prefix: when no cache exists yet and the clone succeeds,
    [is_remote_git_repository] clones that path, without credentials,
    into the directory addressed by the path and the branch, returns the
    clone, and leaves the caller's buffer and the preferences as they
    were. *)
Theorem file_locator_clones_path (E : backend) (path branch : string)
    (g : git_repository) (w : world) :
  remote_type_of path = OTHER ->
  alloc_ok E (allocs w) = true ->
  let dir := local_dir_name E path branch in
  fs w !! dir = None ->
  cloned E path branch = Some g ->
  is_remote_git_repository E ("file://" +:+ path) branch w
  = ((Repo dir, "file://" +:+ path),
     set_disk (<[dir := true]> (fs w)) (<[dir := g]> (repos w))
       (add_call (call_clone path dir branch None) (add_alloc w))).
Proof.
  intros Hrt Halloc dir Hfs Hclone.
  assert (Hsplit : split_account path = None).
  { apply split_account_other_scheme. unfold remote_type_of in Hrt.
    destruct (has_prefix "ssh://" path); [discriminate |].
    now destruct (has_prefix "https://" path). }
  unfold is_remote_git_repository.
  change (looks_remote ("file://" +:+ path)) with true.
  rewrite has_prefix_app. cbn [negb]. cbv zeta.
  change (str_drop 7 ("file://" +:+ path)) with path.
  change (str_take 7 ("file://" +:+ path)) with "file://".
  rewrite Hsplit, bind_run, ret_run. cbn [fst snd].
  rewrite bind_run. unfold get_local_dir. rewrite format_string_run, Halloc.
  cbn [fst snd]. fold dir.
  rewrite bind_run, ret_run. unfold get_remote_repo.
  rewrite bind_run, stat_run. cbn [fst snd fs add_alloc]. rewrite Hfs.
  unfold create_local_repo, git_clone, credentials_for. rewrite Hrt.
  replace (if USE_LIBGIT23_API E then None else None) with (@None cred_cb)
    by (now destruct (USE_LIBGIT23_API E)).
  cbn [acquire_cred].
  rewrite !bind_run, !ret_run, trace_run. cbn [fst snd]. rewrite Hclone.
  rewrite bind_run, modify_run, ret_run. reflexivity.
Qed.

Lemma file_locator_clones_path_witness :
  fst (is_remote_git_repository Samples.willing "file:///srv/dives" "main"
         Samples.empty_world)
  = (Repo (local_dir_name Samples.willing "/srv/dives" "main"),
     "file:///srv/dives").
Proof.
  exact (f_equal fst
    (file_locator_clones_path Samples.willing "/srv/dives" "main"
       no_repository Samples.empty_world eq_refl eq_refl eq_refl eq_refl)).
Defined.
